(** * react-access-control: evaluator, cache, cache keys and storage adapters

    A shallow embedding of [src/core/utils.ts] (the evaluator, the cache-key
    derivation, [MemoryCache] and the prefixed storage adapters) and of
    [src/adapters/storage.ts] (the obfuscating and the multi-tier adapter),
    followed by the properties the specification states about them. *)

From Stdlib Require Import NArith ZArith Lia String Ascii.
From stdpp Require Import base option list gmap.

Local Open Scope N_scope.

(** ** JavaScript values used by the library *)

(** A JavaScript string is a sequence of UTF-16 code units; every element of
    a [jsstring] is meant to be below [65536]. *)
Abbreviation jsstring := (list N).

(** ASCII literals of the source, as code units. *)
Definition str (s : string) : jsstring :=
  List.map N_of_ascii (list_ascii_of_string s).

(** [a === b] on strings. *)
Definition strictEq (a b : jsstring) : bool := bool_decide (a = b).

(** Truthiness of a [string | undefined]: [undefined] and [''] are falsy. *)
Definition truthyString (s : option jsstring) : bool :=
  match s with
  | Some (_ :: _) => true
  | _ => false
  end.

(** [a && a.length > 0] for an optional array, coerced to a boolean. *)
Definition nonEmptyArray {A} (a : option (list A)) : bool :=
  match a with
  | Some (_ :: _) => true
  | _ => false
  end.

(** ** core/types.ts *)

Record AccessControlConfig := {
  feature : option jsstring;
  anyFeature : option (list jsstring);
  allFeatures : option (list jsstring);
  permission : option jsstring;
  anyPermission : option (list jsstring);
  allPermissions : option (list jsstring);
  requireBoth : option bool
}.

Record UserPermissions := {
  permissions : list jsstring;
  roles : list jsstring;
  userId : option jsstring;
  organizationId : option jsstring
}.

Record FeatureFlag := {
  id : jsstring;
  name : jsstring;
  enabled : bool;
  description : option jsstring;
  category : option jsstring;
  requiresConfig : option bool
}.

(** The object [evaluateAccessControl] returns. *)
Record Evaluation := {
  hasAccess : bool;
  hasFeatureAccess : bool;
  hasPermissionAccess : bool;
  hasFeatureCheck : bool;
  hasPermissionCheck : bool
}.

(** ** core/utils.ts: the evaluator *)

(** [Array.prototype.includes] on an array of strings. *)
Definition includes (l : list jsstring) (x : jsstring) : bool :=
  existsb (fun y => strictEq y x) l.

Definition hasPermission (userPermissions : list jsstring) (permission : jsstring) : bool :=
  includes userPermissions permission.

Definition hasAnyPermission (userPermissions permissions : list jsstring) : bool :=
  existsb (fun permission => includes userPermissions permission) permissions.

Definition hasAllPermissions (userPermissions permissions : list jsstring) : bool :=
  forallb (fun permission => includes userPermissions permission) permissions.

Definition hasRole (userRoles : list jsstring) (role : jsstring) : bool :=
  includes userRoles role.

(** The predicate handed to [find] in [hasFeature]. *)
Definition flagMatches (feature : jsstring) (f : FeatureFlag) : bool :=
  strictEq (id f) feature || strictEq (name f) feature.

Definition hasFeature (featureFlags : list FeatureFlag) (feature : jsstring) : bool :=
  match List.find (flagMatches feature) featureFlags with
  | Some flag => enabled flag
  | None => false
  end.

Definition hasAnyFeature (featureFlags : list FeatureFlag) (features : list jsstring) : bool :=
  existsb (fun feature => hasFeature featureFlags feature) features.

Definition hasAllFeatures (featureFlags : list FeatureFlag) (features : list jsstring) : bool :=
  forallb (fun feature => hasFeature featureFlags feature) features.

(** The closure [checkFeatureAccess]: the branches test [feature],
    [anyFeature] and [allFeatures] for truthiness, in this order. *)
Definition checkFeatureAccess (config : AccessControlConfig)
    (featureFlags : list FeatureFlag) : bool :=
  match feature config with
  | Some (c :: s) => hasFeature featureFlags (c :: s)
  | _ =>
    match anyFeature config with
    | Some (x :: l) => hasAnyFeature featureFlags (x :: l)
    | _ =>
      match allFeatures config with
      | Some (x :: l) => hasAllFeatures featureFlags (x :: l)
      | _ => true
      end
    end
  end.

Definition checkPermissionAccess (config : AccessControlConfig)
    (userPermissions : UserPermissions) : bool :=
  match permission config with
  | Some (c :: s) => hasPermission (permissions userPermissions) (c :: s)
  | _ =>
    match anyPermission config with
    | Some (x :: l) => hasAnyPermission (permissions userPermissions) (x :: l)
    | _ =>
      match allPermissions config with
      | Some (x :: l) => hasAllPermissions (permissions userPermissions) (x :: l)
      | _ => true
      end
    end
  end.

(** The closure [calculateFinalAccess], over the four booleans it reads and
    [requireBoth] after its default. *)
Definition calculateFinalAccess (requireBoth hasFeatureCheck hasPermissionCheck
    hasFeatureAccess hasPermissionAccess : bool) : bool :=
  if negb hasFeatureCheck && negb hasPermissionCheck then false
  else if requireBoth then
    if hasFeatureCheck && hasPermissionCheck
    then hasFeatureAccess && hasPermissionAccess
    else if hasFeatureCheck then hasFeatureAccess else hasPermissionAccess
  else
    if hasFeatureCheck && hasPermissionCheck
    then hasFeatureAccess || hasPermissionAccess
    else if hasFeatureCheck then hasFeatureAccess else hasPermissionAccess.

Definition evaluateAccessControl (config : AccessControlConfig)
    (userPermissions : UserPermissions) (featureFlags : list FeatureFlag) : Evaluation :=
  let requireBoth := default false (requireBoth config) in
  let hasFeatureCheck :=
    truthyString (feature config) || nonEmptyArray (anyFeature config)
    || nonEmptyArray (allFeatures config) in
  let hasPermissionCheck :=
    truthyString (permission config) || nonEmptyArray (anyPermission config)
    || nonEmptyArray (allPermissions config) in
  let hasFeatureAccess := checkFeatureAccess config featureFlags in
  let hasPermissionAccess := checkPermissionAccess config userPermissions in
  let hasAccess :=
    calculateFinalAccess requireBoth hasFeatureCheck hasPermissionCheck
      hasFeatureAccess hasPermissionAccess in
  {| hasAccess := hasAccess;
     hasFeatureAccess := hasFeatureAccess;
     hasPermissionAccess := hasPermissionAccess;
     hasFeatureCheck := hasFeatureCheck;
     hasPermissionCheck := hasPermissionCheck |}.

(** *** The combination rule, in the specification's words

    Neither check requested: no access.  Both requested: AND under
    [requireBoth], OR otherwise.  Exactly one requested: that check's result
    alone. *)
Definition specFinalAccess (requireBoth featureRequested permissionRequested
    featureResult permissionResult : bool) : bool :=
  match featureRequested, permissionRequested with
  | false, false => false
  | true, true =>
    if requireBoth then andb featureResult permissionResult
    else orb featureResult permissionResult
  | true, false => featureResult
  | false, true => permissionResult
  end.

(** A config field counts as unset when it is [undefined]; an array is
    empty or unset when it is [undefined] or has no element. *)
Definition unset {A} (o : option A) : bool :=
  match o with None => true | Some _ => false end.

Definition emptyOrUnset {A} (o : option (list A)) : bool :=
  match o with None | Some [] => true | Some (_ :: _) => false end.

(** "A feature check is requested", read off the fields as the specification
    words it: [feature] is set, or [anyFeature] or [allFeatures] is a
    non-empty array. *)
Definition featureCheckRequested (config : AccessControlConfig) : bool :=
  negb (unset (feature config) && emptyOrUnset (anyFeature config)
        && emptyOrUnset (allFeatures config)).

Definition permissionCheckRequested (config : AccessControlConfig) : bool :=
  negb (unset (permission config) && emptyOrUnset (anyPermission config)
        && emptyOrUnset (allPermissions config)).

(** The same, with an empty string counted as unset, as JavaScript's
    truthiness does. *)
Definition unsetOrEmptyString (o : option jsstring) : bool :=
  match o with None | Some [] => true | Some (_ :: _) => false end.

Definition featureCheckEffective (config : AccessControlConfig) : bool :=
  negb (unsetOrEmptyString (feature config) && emptyOrUnset (anyFeature config)
        && emptyOrUnset (allFeatures config)).

Definition permissionCheckEffective (config : AccessControlConfig) : bool :=
  negb (unsetOrEmptyString (permission config) && emptyOrUnset (anyPermission config)
        && emptyOrUnset (allPermissions config)).

(** "[x] resolves to the flag [f] of [F]": [f] is the first flag of [F] whose
    [id] or [name] is exactly [x]. *)
Definition resolvesTo (F : list FeatureFlag) (x : jsstring) (f : FeatureFlag) : Prop :=
  exists pre post,
    F = pre ++ f :: post /\
    (id f = x \/ name f = x) /\
    (forall g, In g pre -> id g <> x /\ name g <> x).

Definition resolvesEnabled (F : list FeatureFlag) (x : jsstring) : Prop :=
  exists f, resolvesTo F x f /\ enabled f = true.

(** ** Exceptions *)

(** The exceptions the modelled code can meet: [btoa] and [atob] raise
    [InvalidCharacterError]; a host storage can raise anything. *)
Inductive JsError :=
  | InvalidCharacterError
  | QuotaExceededError
  | SecurityError
  | OtherError (message : jsstring).

(** The outcome of a call (of an awaited promise, for an [async] one). *)
Inductive result (A : Type) :=
  | Ok (a : A)
  | Throw (e : JsError).
Arguments Ok {A} a.
Arguments Throw {A} e.

Definition throws {A} (r : result A) : bool :=
  match r with Ok _ => false | Throw _ => true end.

(** ** The platform's [btoa] and [atob] *)

Module Base64.

(** The character of a 6-bit value in the base64 alphabet. *)
Definition b64char (i : N) : N :=
  if i <? 26 then 65 + i
  else if i <? 52 then 71 + i
  else if i <? 62 then i - 4
  else if i =? 62 then 43
  else 47.

(** The 6-bit value of a character, if it is in the alphabet. *)
Definition b64val (c : N) : option N :=
  if (65 <=? c) && (c <=? 90) then Some (c - 65)
  else if (97 <=? c) && (c <=? 122) then Some (c - 71)
  else if (48 <=? c) && (c <=? 57) then Some (c + 4)
  else if c =? 43 then Some 62
  else if c =? 47 then Some 63
  else None.

(** Three bytes give four characters; one or two trailing bytes are padded
    with [=] (code 61). *)
Fixpoint encodeGroups (bytes : list N) : list N :=
  match bytes with
  | [] => []
  | [a] => [b64char (a / 4); b64char ((a mod 4) * 16); 61; 61]
  | [a; b] =>
    [b64char (a / 4); b64char ((a mod 4) * 16 + b / 16);
     b64char ((b mod 16) * 4); 61]
  | a :: b :: c :: rest =>
    b64char (a / 4) :: b64char ((a mod 4) * 16 + b / 16)
    :: b64char ((b mod 16) * 4 + c / 64) :: b64char (c mod 64)
    :: encodeGroups rest
  end.

(** The 6-bit values [encodeGroups] writes, and the padding it adds. *)
Fixpoint sextets (bytes : list N) : list N :=
  match bytes with
  | [] => []
  | [a] => [a / 4; (a mod 4) * 16]
  | [a; b] => [a / 4; (a mod 4) * 16 + b / 16; (b mod 16) * 4]
  | a :: b :: c :: rest =>
    a / 4 :: (a mod 4) * 16 + b / 16 :: (b mod 16) * 4 + c / 64 :: c mod 64
    :: sextets rest
  end.

Fixpoint padding (bytes : list N) : list N :=
  match bytes with
  | [] => []
  | [a] => [61; 61]
  | [a; b] => [61]
  | a :: b :: c :: rest => padding rest
  end.

Definition isLatin1 (s : jsstring) : bool := forallb (fun c => c <=? 255) s.

(** [btoa(data)]: raises when a code unit is above U+00FF. *)
Definition btoa (data : jsstring) : result jsstring :=
  if isLatin1 data then Ok (encodeGroups data)
  else Throw InvalidCharacterError.

Definition isAsciiWhitespace (c : N) : bool :=
  (c =? 9) || (c =? 10) || (c =? 12) || (c =? 13) || (c =? 32).

(** "If data ends with one or two U+003D (=), remove them." *)
Definition stripPadding (d : jsstring) : jsstring :=
  match rev d with
  | a :: b :: r =>
    if a =? 61 then (if b =? 61 then rev r else rev (b :: r)) else d
  | [a] => if a =? 61 then [] else d
  | [] => d
  end.

(** Four 6-bit values give three bytes; of two or three trailing values
    the surplus bits are dropped. *)
Fixpoint decodeGroups (sextets : list N) : list N :=
  match sextets with
  | a :: b :: c :: d :: rest =>
    (a * 4 + b / 16) :: ((b mod 16) * 16 + c / 4) :: ((c mod 4) * 64 + d)
    :: decodeGroups rest
  | [a; b; c] => [a * 4 + b / 16; (b mod 16) * 16 + c / 4]
  | [a; b] => [a * 4 + b / 16]
  | _ => []
  end.

(** [atob(data)], the forgiving base64 decoding of the HTML standard. *)
Definition atob (data : jsstring) : result jsstring :=
  let d := List.filter (fun c => negb (isAsciiWhitespace c)) data in
  let d := if (length d mod 4 =? 0)%nat then stripPadding d else d in
  if (length d mod 4 =? 1)%nat then Throw InvalidCharacterError
  else
    match mapM b64val d with
    | None => Throw InvalidCharacterError
    | Some sextets => Ok (decodeGroups sextets)
    end.

End Base64.

(** ** Numbers *)

Module Number.

(** A Number is an IEEE 754 binary64.  Every finite binary64 is a whole
    multiple of [2^-1074], the smallest positive one, so a finite Number is
    kept as that multiple: [Finite u] is [u * 2^-1074], where [u] has at
    most 53 significant bits and is below [2^2098] in magnitude, as the
    results of [round] are.  The sign of a zero, which [<] does not see, is
    not kept. *)
Inductive t :=
  | NaN
  | Infinity (negative : bool)
  | Finite (u : Z).

#[export] Instance t_eq_dec : EqDecision t.
Proof. solve_decision. Defined.

(** [2^1024], the first magnitude that is no longer finite, in units of
    [2^-1074]. *)
Definition overflow : Z := (2 ^ 2098)%Z.

(** The multiple of [2^k] nearest to [a], the even one of the two when [a]
    is half way between them ([roundTiesToEven]); [0 <= a] and [0 < k]. *)
Definition roundTiesToEven (k a : Z) : Z :=
  let q := (a / 2 ^ k)%Z in
  let r := (a mod 2 ^ k)%Z in
  let half := (2 ^ (k - 1))%Z in
  let up := (half <? r)%Z || ((r =? half)%Z && Z.odd q) in
  ((if up then q + 1 else q) * 2 ^ k)%Z.

(** A magnitude rounded to 53 significant bits. *)
Definition roundMagnitude (a : Z) : Z :=
  let k := (Z.log2 a + 1 - 53)%Z in
  if (0 <? k)%Z then roundTiesToEven k a else a.

(** The Number nearest to [u * 2^-1074], for any integer [u]: the result of
    an operation whose exact value is [u * 2^-1074]. *)
Definition round (u : Z) : t :=
  let a := roundMagnitude (Z.abs u) in
  if (overflow <=? a)%Z then Infinity (u <? 0)%Z
  else Finite (Z.sgn u * a).

(** An integer, and [m * 2^e] for [-1074 <= e], as Numbers. *)
Definition ofZ (n : Z) : t := round (n * 2 ^ 1074).

Definition ofDyadic (m e : Z) : t := round (m * 2 ^ (e + 1074)).

(** [Number.isSafeInteger]: the integers below [2^53] in magnitude. *)
Definition isSafeInteger (n : Z) : bool := (Z.abs n <? 2 ^ 53)%Z.

(** [x + y]. *)
Definition add (x y : t) : t :=
  match x, y with
  | NaN, _ | _, NaN => NaN
  | Infinity a, Infinity b => if Bool.eqb a b then Infinity a else NaN
  | Infinity a, Finite _ | Finite _, Infinity a => Infinity a
  | Finite u, Finite v => round (u + v)
  end.

(** [x < y]. *)
Definition ltb (x y : t) : bool :=
  match x, y with
  | NaN, _ | _, NaN => false
  | Infinity a, Infinity b => a && negb b
  | Infinity a, Finite _ => a
  | Finite _, Infinity b => negb b
  | Finite u, Finite v => (u <? v)%Z
  end.

(** [x <= y]. *)
Definition leb (x y : t) : bool :=
  match x, y with
  | NaN, _ | _, NaN => false
  | Infinity a, Infinity b => a || negb b
  | Infinity a, Finite _ => a
  | Finite _, Infinity b => negb b
  | Finite u, Finite v => (u <=? v)%Z
  end.

End Number.

(** ** core/utils.ts: the cache *)

Record CacheEntry (T : Type) := {
  data : T;
  timestamp : Number.t;
  expiresAt : Number.t
}.
Arguments data {T} _.
Arguments timestamp {T} _.
Arguments expiresAt {T} _.

(** [Date.now()] is an argument [now] of every function that reads the
    clock: a whole number of milliseconds, which [Number.ofZ] makes the
    Number the code handles.  A ttl is any Number. *)
Definition isCacheValid {T} (now : Z) (entry : CacheEntry T) : bool :=
  Number.ltb (Number.ofZ now) (expiresAt entry).

Definition createCacheEntry {T} (now : Z) (data : T) (ttlMs : option Number.t) :
    CacheEntry T :=
  let ttlMs := default (Number.ofZ (5 * 60 * 1000)) ttlMs in
  {| data := data; timestamp := Number.ofZ now;
     expiresAt := Number.add (Number.ofZ now) ttlMs |}.

Module MemoryCache.
Section MemoryCache.
Context {T : Type}.

(** The private [Map] of the class. *)
Abbreviation t := (gmap jsstring (CacheEntry T)).

Definition get (now : Z) (key : jsstring) (cache : t) : option T * t :=
  match cache !! key with
  | None => (None, cache)
  | Some entry =>
    if isCacheValid now entry then (Some (data entry), cache)
    else (None, base.delete key cache)
  end.

Definition set (now : Z) (key : jsstring) (data : T) (ttlMs : option Number.t)
    (cache : t) : t :=
  <[key := createCacheEntry now data ttlMs]> cache.

Definition delete (key : jsstring) (cache : t) : t := base.delete key cache.

Definition clear (cache : t) : t := ∅.

Definition size (cache : t) : nat := base.size cache.

(** The calls a client can make on a cache. *)
Inductive call :=
  | CallGet (key : jsstring)
  | CallSet (key : jsstring) (data : T) (ttlMs : option Number.t)
  | CallDelete (key : jsstring)
  | CallClear
  | CallSize.

(** The map after a call made when the clock reads [now]. *)
Definition after (now : Z) (c : call) (cache : t) : t :=
  match c with
  | CallGet key => snd (get now key cache)
  | CallSet key data ttlMs => set now key data ttlMs cache
  | CallDelete key => delete key cache
  | CallClear => clear cache
  | CallSize => cache
  end.

(** The key a call names, if any. *)
Definition calledKey (c : call) : option jsstring :=
  match c with
  | CallGet key | CallSet key _ _
  | CallDelete key => Some key
  | CallClear | CallSize => None
  end.

End MemoryCache.
End MemoryCache.

(** ** Storage adapters *)

(** The [StorageAdapter] interface.  An adapter is a state of type [S]; a
    call returns its outcome and the state after it.  [null] is [None]. *)
Class StorageAdapter (S : Type) := {
  getItem : jsstring -> S -> result (option jsstring) * S;
  setItem : jsstring -> jsstring -> S -> result unit * S;
  removeItem : jsstring -> S -> result unit * S
}.

(** [MockStorageAdapter]: a [Map] from keys to values. *)
Module MockStorageAdapter.

Abbreviation t := (gmap jsstring jsstring).

(** [this.storage.get(key) || null]: an empty string stored reads as
    [null]. *)
Definition getItem (key : jsstring) (storage : t) : result (option jsstring) * t :=
  (Ok (match storage !! key with
       | Some (c :: s) => Some (c :: s)
       | _ => None
       end), storage).

Definition setItem (key value : jsstring) (storage : t) : result unit * t :=
  (Ok (), <[key := value]> storage).

Definition removeItem (key : jsstring) (storage : t) : result unit * t :=
  (Ok (), base.delete key storage).

Definition clear (storage : t) : t := ∅.

End MockStorageAdapter.

#[export] Instance MockStorageAdapter_StorageAdapter :
    StorageAdapter MockStorageAdapter.t := {|
  getItem := MockStorageAdapter.getItem;
  setItem := MockStorageAdapter.setItem;
  removeItem := MockStorageAdapter.removeItem
|}.

(** A host storage that is disabled: every call raises. *)
Inductive DisabledStorage := Disabled.

#[export] Instance DisabledStorage_StorageAdapter : StorageAdapter DisabledStorage := {|
  getItem _ s := (Throw SecurityError, s);
  setItem _ _ s := (Throw SecurityError, s);
  removeItem _ s := (Throw SecurityError, s)
|}.

(** [LocalStorageAdapter]; [SessionStorageAdapter] and [AsyncStorageAdapter]
    have the same text over [sessionStorage] and over the injected
    [asyncStorage].  The host storage is any implementation [H] of the
    three calls, free to raise. *)
Module LocalStorageAdapter.
Section LocalStorageAdapter.
Context {H : Type} `{!StorageAdapter H}.

Record t := {
  keyPrefix : jsstring;
  localStorage : H
}.

Definition getKey (a : t) (key : jsstring) : jsstring :=
  keyPrefix a ++ 58 :: key.

Definition withHost (a : t) (h : H) : t :=
  {| keyPrefix := keyPrefix a; localStorage := h |}.

Definition getItem (key : jsstring) (a : t) : result (option jsstring) * t :=
  match getItem (getKey a key) (localStorage a) with
  | (Ok v, h) => (Ok v, withHost a h)
  | (Throw _, h) => (Ok None, withHost a h)
  end.

Definition setItem (key value : jsstring) (a : t) : result unit * t :=
  match setItem (getKey a key) value (localStorage a) with
  | (Ok _, h) => (Ok (), withHost a h)
  | (Throw _, h) => (Ok (), withHost a h)
  end.

Definition removeItem (key : jsstring) (a : t) : result unit * t :=
  match removeItem (getKey a key) (localStorage a) with
  | (Ok _, h) => (Ok (), withHost a h)
  | (Throw _, h) => (Ok (), withHost a h)
  end.

End LocalStorageAdapter.
Arguments t : clear implicits.
End LocalStorageAdapter.

#[export] Instance LocalStorageAdapter_StorageAdapter {H} `{!StorageAdapter H} :
    StorageAdapter (LocalStorageAdapter.t H) := {|
  getItem := LocalStorageAdapter.getItem;
  setItem := LocalStorageAdapter.setItem;
  removeItem := LocalStorageAdapter.removeItem
|}.

(** [EncryptedStorageAdapter] over a base adapter [B]. *)
Module EncryptedStorageAdapter.
Section EncryptedStorageAdapter.
Context {B : Type} `{!StorageAdapter B}.

Record t := {
  baseAdapter : B;
  secretKey : jsstring
}.

Definition withBase (a : t) (b : B) : t :=
  {| baseAdapter := b; secretKey := secretKey a |}.

(** [secretKey.charCodeAt(i % secretKey.length)] as [^] sees it: with an
    empty key the index is [NaN], [charCodeAt] gives [NaN], and [^] reads
    [NaN] as [0]. *)
Definition keyCodeAt (secretKey : jsstring) (i : nat) : N :=
  match secretKey with
  | [] => 0
  | _ :: _ => nth (i mod length secretKey) secretKey 0
  end.

(** The [for] loop shared by [encrypt] and [decrypt], from index [i]. *)
Fixpoint xorLoop (secretKey : jsstring) (i : nat) (text : jsstring) : jsstring :=
  match text with
  | [] => []
  | c :: rest => N.lxor c (keyCodeAt secretKey i) :: xorLoop secretKey (S i) rest
  end.

Definition encrypt (secretKey text : jsstring) : result jsstring :=
  Base64.btoa (xorLoop secretKey 0 text).

(** The [try] of [decrypt] turns an exception of [atob] into [''] . *)
Definition decrypt (secretKey encryptedText : jsstring) : result jsstring :=
  match Base64.atob encryptedText with
  | Ok text => Ok (xorLoop secretKey 0 text)
  | Throw _ => Ok []
  end.

(** The base adapter is awaited outside the [try]; the [catch] answers
    [null] to an exception of [decrypt]. *)
Definition getItem (key : jsstring) (a : t) : result (option jsstring) * t :=
  match getItem key (baseAdapter a) with
  | (Throw e, b) => (Throw e, withBase a b)
  | (Ok encryptedValue, b) =>
    match encryptedValue with
    | Some (c :: s) =>
      match decrypt (secretKey a) (c :: s) with
      | Ok text => (Ok (Some text), withBase a b)
      | Throw _ => (Ok None, withBase a b)
      end
    | _ => (Ok None, withBase a b)
    end
  end.

Definition setItem (key value : jsstring) (a : t) : result unit * t :=
  match encrypt (secretKey a) value with
  | Throw e => (Throw e, a)
  | Ok encryptedValue =>
    let '(r, b) := setItem key encryptedValue (baseAdapter a) in
    (r, withBase a b)
  end.

Definition removeItem (key : jsstring) (a : t) : result unit * t :=
  let '(r, b) := removeItem key (baseAdapter a) in
  (r, withBase a b).

End EncryptedStorageAdapter.
Arguments t : clear implicits.
End EncryptedStorageAdapter.

#[export] Instance EncryptedStorageAdapter_StorageAdapter {B} `{!StorageAdapter B} :
    StorageAdapter (EncryptedStorageAdapter.t B) := {|
  getItem := EncryptedStorageAdapter.getItem;
  setItem := EncryptedStorageAdapter.setItem;
  removeItem := EncryptedStorageAdapter.removeItem
|}.

(** [MultiTierStorageAdapter]: the tiers are adapters of one type [S] (a sum
    type mixes kinds). *)
Module MultiTierStorageAdapter.
Section MultiTierStorageAdapter.
Context {S : Type} `{!StorageAdapter S}.

Abbreviation t := (list S).

Local Abbreviation tierGetItem := (@getItem S _).
Local Abbreviation tierSetItem := (@setItem S _).
Local Abbreviation tierRemoveItem := (@removeItem S _).

(** The [for ... of] loop of [getItem]: an exception or [null] moves on to
    the next tier. *)
Fixpoint getItem (key : jsstring) (adapters : t) : result (option jsstring) * t :=
  match adapters with
  | [] => (Ok None, [])
  | adapter :: rest =>
    match tierGetItem key adapter with
    | (Ok (Some v), adapter') => (Ok (Some v), adapter' :: rest)
    | (_, adapter') =>
      let '(r, rest') := getItem key rest in (r, adapter' :: rest')
    end
  end.

(** Every tier is called; [Promise.allSettled] over promises that cannot
    reject. *)
Definition setItem (key value : jsstring) (adapters : t) : result unit * t :=
  (Ok (), List.map (fun adapter => snd (tierSetItem key value adapter)) adapters).

Definition removeItem (key : jsstring) (adapters : t) : result unit * t :=
  (Ok (), List.map (fun adapter => snd (tierRemoveItem key adapter)) adapters).

End MultiTierStorageAdapter.
End MultiTierStorageAdapter.

(** A base adapter that works: a non-empty value written under a key is
    what the next read of that key returns, and neither call raises. *)
Class WorkingAdapter (S : Type) `{!StorageAdapter S} : Prop := {
  setItem_ok : forall key value s, fst (setItem key value s) = Ok ();
  getItem_setItem : forall key value s,
    value <> [] ->
    fst (getItem key (snd (setItem key value s))) = Ok (Some value)
}.

(** ** Config objects *)

(** The keys of an [AccessControlConfig], in the order of the interface. *)
Inductive ConfigKey :=
  | KeyFeature
  | KeyAnyFeature
  | KeyAllFeatures
  | KeyPermission
  | KeyAnyPermission
  | KeyAllPermissions
  | KeyRequireBoth.

#[export] Instance ConfigKey_eq_dec : EqDecision ConfigKey.
Proof. solve_decision. Defined.

Definition interfaceKeys : list ConfigKey :=
  [KeyFeature; KeyAnyFeature; KeyAllFeatures; KeyPermission; KeyAnyPermission;
   KeyAllPermissions; KeyRequireBoth].

Definition keyName (k : ConfigKey) : jsstring :=
  match k with
  | KeyFeature => str "feature"
  | KeyAnyFeature => str "anyFeature"
  | KeyAllFeatures => str "allFeatures"
  | KeyPermission => str "permission"
  | KeyAnyPermission => str "anyPermission"
  | KeyAllPermissions => str "allPermissions"
  | KeyRequireBoth => str "requireBoth"
  end.

(** A config as the JavaScript object it is: the values of its properties,
    which [evaluateAccessControl] reads ([None] for [undefined], the value
    of a property that the object does not have), and its own keys in the
    order of their creation, which [JSON.stringify] follows. *)
Record ConfigObject := {
  fields : AccessControlConfig;
  ownKeys : list ConfigKey
}.

(** Whether a property has a value. *)
Definition hasValue {A} (o : option A) : bool :=
  match o with Some _ => true | None => false end.

Definition isDefined (config : AccessControlConfig) (k : ConfigKey) : bool :=
  match k with
  | KeyFeature => hasValue (feature config)
  | KeyAnyFeature => hasValue (anyFeature config)
  | KeyAllFeatures => hasValue (allFeatures config)
  | KeyPermission => hasValue (permission config)
  | KeyAnyPermission => hasValue (anyPermission config)
  | KeyAllPermissions => hasValue (allPermissions config)
  | KeyRequireBoth => hasValue (requireBoth config)
  end.

(** What makes the pair an object: its own keys are distinct, and a
    property that has a value is an own property. *)
Definition isObject (obj : ConfigObject) : bool :=
  bool_decide (NoDup (ownKeys obj))
  && forallb (fun k => implb (isDefined (fields obj) k)
                         (bool_decide (k ∈ ownKeys obj))) interfaceKeys.

(** The own keys whose property has a value, in their order. *)
Definition definedKeys (obj : ConfigObject) : list ConfigKey :=
  List.filter (isDefined (fields obj)) (ownKeys obj).

(** ** [JSON.stringify] on a config object *)

Module JSON.

(** A lowercase hexadecimal digit. *)
Definition hexDigit (d : N) : N := if d <? 10 then 48 + d else 87 + d.

(** [UnicodeEscape]: a backslash, [u] and four hexadecimal digits. *)
Definition unicodeEscape (c : N) : jsstring :=
  [92; 117; hexDigit (c / 4096); hexDigit ((c / 256) mod 16);
   hexDigit ((c / 16) mod 16); hexDigit (c mod 16)].

Definition isLeadingSurrogate (c : N) : bool := (55296 <=? c) && (c <=? 56319).
Definition isTrailingSurrogate (c : N) : bool := (56320 <=? c) && (c <=? 57343).

(** What [QuoteJSONString] appends for a code point that is one code
    unit: the two-character escapes, a [UnicodeEscape] for the other
    control characters and for a lone surrogate, the unit itself
    otherwise. *)
Definition quoteUnit (c : N) : jsstring :=
  if c =? 8 then [92; 98]
  else if c =? 9 then [92; 116]
  else if c =? 10 then [92; 110]
  else if c =? 12 then [92; 102]
  else if c =? 13 then [92; 114]
  else if c =? 34 then [92; 34]
  else if c =? 92 then [92; 92]
  else if (c <? 32) || isLeadingSurrogate c || isTrailingSurrogate c
       then unicodeEscape c
  else [c].

(** The loop of [QuoteJSONString] over the code points of the string: a
    leading surrogate followed by a trailing one is one code point and is
    copied. *)
Fixpoint quoteBody (s : jsstring) : jsstring :=
  match s with
  | [] => []
  | c :: rest =>
    match rest with
    | d :: rest' =>
      if isLeadingSurrogate c && isTrailingSurrogate d
      then c :: d :: quoteBody rest'
      else quoteUnit c ++ quoteBody rest
    | [] => quoteUnit c
    end
  end.

Definition quoteJSONString (s : jsstring) : jsstring :=
  34 :: quoteBody s ++ [34].

(** The elements separated by commas. *)
Definition joinComma (l : list jsstring) : jsstring :=
  match l with
  | [] => []
  | x :: xs => x ++ concat (List.map (fun y => 44 :: y) xs)
  end.

Definition serializeArray (l : list jsstring) : jsstring :=
  91 :: joinComma (List.map quoteJSONString l) ++ [93].

Definition serializeBoolean (b : bool) : jsstring :=
  if b then str "true" else str "false".

(** The serialization of the value of a property, [None] for
    [undefined]. *)
Definition serializeProperty (config : AccessControlConfig) (k : ConfigKey) :
    option jsstring :=
  match k with
  | KeyFeature => quoteJSONString <$> feature config
  | KeyAnyFeature => serializeArray <$> anyFeature config
  | KeyAllFeatures => serializeArray <$> allFeatures config
  | KeyPermission => quoteJSONString <$> permission config
  | KeyAnyPermission => serializeArray <$> anyPermission config
  | KeyAllPermissions => serializeArray <$> allPermissions config
  | KeyRequireBoth => serializeBoolean <$> requireBoth config
  end.

(** The own properties of a config object with their serializations, in
    the order of its own keys. *)
Definition properties (obj : ConfigObject) : list (jsstring * option jsstring) :=
  List.map (fun k => (keyName k, serializeProperty (fields obj) k)) (ownKeys obj).

(** [SerializeJSONObject]: a member for every property that is not
    [undefined], the members joined by commas between braces. *)
Fixpoint partial (props : list (jsstring * option jsstring)) : list jsstring :=
  match props with
  | [] => []
  | (key, None) :: rest => partial rest
  | (key, Some v) :: rest => (quoteJSONString key ++ 58 :: v) :: partial rest
  end.

Definition serializeObject (props : list (jsstring * option jsstring)) : jsstring :=
  123 :: joinComma (partial props) ++ [125].

Definition stringify (obj : ConfigObject) : jsstring :=
  serializeObject (properties obj).

(** The members that are written, by key: the keys whose property has a
    value, each with the serialization of the value. *)
Fixpoint members (config : AccessControlConfig) (keys : list ConfigKey) :
    list (ConfigKey * jsstring) :=
  match keys with
  | [] => []
  | k :: rest =>
    match serializeProperty config k with
    | Some v => (k, v) :: members config rest
    | None => members config rest
    end
  end.

Definition memberString (m : ConfigKey * jsstring) : jsstring :=
  quoteJSONString (keyName (fst m)) ++ 58 :: snd m.

(** The members of an object from some point on, up to the closing brace;
    [first] tells whether a member was written before. *)
Definition separator (first : bool) : jsstring :=
  if first then [] else [44].

Fixpoint objectTail (first : bool) (members : list jsstring) : jsstring :=
  match members with
  | [] => [125]
  | m :: rest => separator first ++ m ++ objectTail false rest
  end.

(** *** A reader of quoted strings

    Not part of the library: the left inverse of [quoteBody] up to the
    closing quote, by which the proofs recover a string from its
    serialization. *)
Definition hexVal (c : N) : option N :=
  if (48 <=? c) && (c <=? 57) then Some (c - 48)
  else if (97 <=? c) && (c <=? 102) then Some (c - 87)
  else None.

Definition unescape (e : N) : option N :=
  if e =? 98 then Some 8
  else if e =? 116 then Some 9
  else if e =? 110 then Some 10
  else if e =? 102 then Some 12
  else if e =? 114 then Some 13
  else if e =? 34 then Some 34
  else if e =? 92 then Some 92
  else None.

Fixpoint unquoteBody (s : jsstring) : option (jsstring * jsstring) :=
  match s with
  | [] => None
  | c :: rest =>
    if c =? 34 then Some ([], rest)
    else if c =? 92 then
      match rest with
      | [] => None
      | e :: rest1 =>
        if e =? 117 then
          match rest1 with
          | h1 :: h2 :: h3 :: h4 :: rest2 =>
            match hexVal h1, hexVal h2, hexVal h3, hexVal h4, unquoteBody rest2 with
            | Some a, Some b, Some c', Some d, Some (t, r) =>
              Some ((a * 4096 + b * 256 + c' * 16 + d) :: t, r)
            | _, _, _, _, _ => None
            end
          | _ => None
          end
        else
          match unescape e, unquoteBody rest1 with
          | Some u, Some (t, r) => Some (u :: t, r)
          | _, _ => None
          end
      end
    else
      match unquoteBody rest with
      | Some (t, r) => Some (c :: t, r)
      | None => None
      end
  end.

(** A serializer is self-delimiting when its output determines its input
    whatever follows. *)
Definition SelfDelimiting {A} (serialize : A -> jsstring) : Prop :=
  forall a1 a2 r1 r2,
    serialize a1 ++ r1 = serialize a2 ++ r2 -> a1 = a2 /\ r1 = r2.

(** Two values are compatible when neither can be mistaken for a prefix of
    the other. *)
Definition compatible (o1 o2 : option jsstring) : Prop :=
  forall v1 v2 r1 r2,
    o1 = Some v1 -> o2 = Some v2 -> v1 ++ r1 = v2 ++ r2 -> v1 = v2 /\ r1 = r2.

End JSON.

(** ** core/utils.ts: the cache key *)

(** [userId || 'anonymous']. *)
Definition userString (userId : option jsstring) : jsstring :=
  match userId with
  | Some (c :: s) => c :: s
  | _ => str "anonymous"
  end.

Definition generateCacheKey (config : ConfigObject)
    (userId : option jsstring) : result jsstring :=
  let configString := JSON.stringify config in
  let userString := userString userId in
  match Base64.btoa configString with
  | Ok encoded => Ok (str "access-control:" ++ userString ++ 58 :: encoded)
  | Throw e => Throw e
  end.

(** ** Inputs of the examples *)

(** A config with no field set but [feature], which is the empty string. *)
Definition emptyFeatureConfig : AccessControlConfig :=
  {| feature := Some []; anyFeature := None; allFeatures := None;
     permission := None; anyPermission := None; allPermissions := None;
     requireBoth := None |}.

Definition noUser : UserPermissions :=
  {| permissions := []; roles := []; userId := None; organizationId := None |}.

(** Replacing one field of a config. *)
Definition withFeature (f : option jsstring) (config : AccessControlConfig) :=
  {| feature := f; anyFeature := anyFeature config;
     allFeatures := allFeatures config; permission := permission config;
     anyPermission := anyPermission config;
     allPermissions := allPermissions config;
     requireBoth := requireBoth config |}.

Definition withPermission (p : option jsstring) (config : AccessControlConfig) :=
  {| feature := feature config; anyFeature := anyFeature config;
     allFeatures := allFeatures config; permission := p;
     anyPermission := anyPermission config;
     allPermissions := allPermissions config;
     requireBoth := requireBoth config |}.

(** The config [{ feature: '', requireBoth: rb }] and its permission twin. *)
Definition onlyEmptyFeature (rb : option bool) : AccessControlConfig :=
  {| feature := Some []; anyFeature := None; allFeatures := None;
     permission := None; anyPermission := None; allPermissions := None;
     requireBoth := rb |}.

Definition onlyEmptyPermission (rb : option bool) : AccessControlConfig :=
  {| feature := None; anyFeature := None; allFeatures := None;
     permission := Some []; anyPermission := None; allPermissions := None;
     requireBoth := rb |}.

(** The scenarios of the specification: a user with the given permissions,
    a config with one field, the flags [f1] (enabled) and [f2] (disabled). *)
Definition userWith (ps : list jsstring) : UserPermissions :=
  {| permissions := ps; roles := []; userId := None; organizationId := None |}.

Definition flag (i : jsstring) (on : bool) : FeatureFlag :=
  {| id := i; name := i; enabled := on; description := None;
     category := None; requiresConfig := None |}.

Definition scenarioFlags : list FeatureFlag :=
  [flag (str "f1") true; flag (str "f2") false].

Definition permissionConfig (p : jsstring) : AccessControlConfig :=
  {| feature := None; anyFeature := None; allFeatures := None;
     permission := Some p; anyPermission := None; allPermissions := None;
     requireBoth := None |}.

Definition allPermissionsConfig (ps : list jsstring) : AccessControlConfig :=
  {| feature := None; anyFeature := None; allFeatures := None;
     permission := None; anyPermission := None; allPermissions := Some ps;
     requireBoth := None |}.

Definition anyFeatureConfig (fs : list jsstring) : AccessControlConfig :=
  {| feature := None; anyFeature := Some fs; allFeatures := None;
     permission := None; anyPermission := None; allPermissions := None;
     requireBoth := None |}.

Definition allFeaturesConfig (fs : list jsstring) : AccessControlConfig :=
  {| feature := None; anyFeature := None; allFeatures := Some fs;
     permission := None; anyPermission := None; allPermissions := None;
     requireBoth := None |}.

(** The config [{}]. *)
Definition noChecks : AccessControlConfig :=
  {| feature := None; anyFeature := None; allFeatures := None;
     permission := None; anyPermission := None; allPermissions := None;
     requireBoth := None |}.

(** The object [{}]. *)
Definition emptyObject : ConfigObject :=
  {| fields := noChecks; ownKeys := [] |}.

(** The object [{ feature: '€' }], the euro sign being U+20AC. *)
Definition euroFeature : ConfigObject :=
  {| fields :=
       {| feature := Some [8364]; anyFeature := None; allFeatures := None;
          permission := None; anyPermission := None; allPermissions := None;
          requireBoth := None |};
     ownKeys := [KeyFeature] |}.

(** The object [{ feature: 'beta' }]. *)
Definition betaFeature : ConfigObject :=
  {| fields :=
       {| feature := Some (str "beta"); anyFeature := None; allFeatures := None;
          permission := None; anyPermission := None; allPermissions := None;
          requireBoth := None |};
     ownKeys := [KeyFeature] |}.

(** The objects [{ feature: 'f', permission: 'p' }] and
    [{ permission: 'p', feature: 'f' }]. *)
Definition featureAndPermission : AccessControlConfig :=
  {| feature := Some (str "f"); anyFeature := None; allFeatures := None;
     permission := Some (str "p"); anyPermission := None;
     allPermissions := None; requireBoth := None |}.

Definition featureFirst : ConfigObject :=
  {| fields := featureAndPermission; ownKeys := [KeyFeature; KeyPermission] |}.

Definition permissionFirst : ConfigObject :=
  {| fields := featureAndPermission; ownKeys := [KeyPermission; KeyFeature] |}.

(** The obfuscating adapter with the key ["key"] over an empty mock
    storage. *)
Definition encryptedMock : EncryptedStorageAdapter.t MockStorageAdapter.t :=
  {| EncryptedStorageAdapter.baseAdapter := ∅;
     EncryptedStorageAdapter.secretKey := str "key" |}.

(** The same over a mock storage that holds ["!!!"] under ["k"]. *)
Definition encryptedMockMalformed : EncryptedStorageAdapter.t MockStorageAdapter.t :=
  {| EncryptedStorageAdapter.baseAdapter := {[ str "k" := str "!!!" ]};
     EncryptedStorageAdapter.secretKey := str "key" |}.

(** The same over a mock storage that holds the unpadded ["QQ"] under
    ["k"]. *)
Definition encryptedMockUnpadded : EncryptedStorageAdapter.t MockStorageAdapter.t :=
  {| EncryptedStorageAdapter.baseAdapter := {[ str "k" := str "QQ" ]};
     EncryptedStorageAdapter.secretKey := str "key" |}.

(** The same over a disabled storage. *)
Definition encryptedDisabled : EncryptedStorageAdapter.t DisabledStorage :=
  {| EncryptedStorageAdapter.baseAdapter := Disabled;
     EncryptedStorageAdapter.secretKey := str "key" |}.

Definition localDisabled : LocalStorageAdapter.t DisabledStorage :=
  {| LocalStorageAdapter.keyPrefix := str "access-control";
     LocalStorageAdapter.localStorage := Disabled |}.

(** ** Further inputs and notions of the properties *)

(** Replacing [requireBoth], the three feature fields, or the three
    permission fields of a config. *)
Definition withRequireBoth (rb : option bool) (config : AccessControlConfig) :=
  {| feature := feature config; anyFeature := anyFeature config;
     allFeatures := allFeatures config; permission := permission config;
     anyPermission := anyPermission config;
     allPermissions := allPermissions config;
     requireBoth := rb |}.

(** An array of adapters of two kinds: each tier is of one kind or the
    other. *)
#[export] Instance sum_StorageAdapter {A B : Type}
    `{!StorageAdapter A} `{!StorageAdapter B} : StorageAdapter (A + B) := {|
  getItem key s :=
    match s with
    | inl a => let '(r, a') := getItem key a in (r, inl a')
    | inr b => let '(r, b') := getItem key b in (r, inr b')
    end;
  setItem key value s :=
    match s with
    | inl a => let '(r, a') := setItem key value a in (r, inl a')
    | inr b => let '(r, b') := setItem key value b in (r, inr b')
    end;
  removeItem key s :=
    match s with
    | inl a => let '(r, a') := removeItem key a in (r, inl a')
    | inr b => let '(r, b') := removeItem key b in (r, inr b')
    end
|}.

(** A disabled tier in front of a mock storage that holds ["v"] under
    ["k"]. *)
Definition disabledThenMock : list (DisabledStorage + MockStorageAdapter.t) :=
  [inl Disabled; inr {[ str "k" := str "v" ]}].

(** Two mock storages as tiers. *)
Definition twoMocks : list MockStorageAdapter.t := [∅; ∅].

(** A [LocalStorageAdapter] with the given prefix over a mock host. *)
Definition localOver (p : jsstring) (host : MockStorageAdapter.t) :
    LocalStorageAdapter.t MockStorageAdapter.t :=
  {| LocalStorageAdapter.keyPrefix := p; LocalStorageAdapter.localStorage := host |}.

(** A tier that has nothing for the key: it answers [null] or raises. *)
Definition tierMisses {S : Type} `{!StorageAdapter S} (key : jsstring)
    (adapter : S) : Prop :=
  fst (getItem key adapter) = Ok None \/ throws (fst (getItem key adapter)) = true.

(** A config all of whose strings are Latin-1 (no code unit above U+00FF). *)
Definition latin1Option (o : option jsstring) : bool :=
  match o with Some s => Base64.isLatin1 s | None => true end.

Definition latin1Array (o : option (list jsstring)) : bool :=
  match o with Some l => forallb Base64.isLatin1 l | None => true end.

Definition configIsLatin1 (config : AccessControlConfig) : bool :=
  latin1Option (feature config) && latin1Array (anyFeature config)
  && latin1Array (allFeatures config) && latin1Option (permission config)
  && latin1Array (anyPermission config) && latin1Array (allPermissions config).

(** ** core/utils.ts: [deepEqual] *)

(** The values [deepEqual] can be given.  A number is [NaN] ([None]) or a
    value, compared by [===] as a value; a function and an object carry the
    reference that [===] compares; an object (an array is one) has its own
    enumerable properties, with distinct keys, in the order of
    [Object.keys].  Objects are finite trees. *)
#[warnings="-register-all"]
Inductive JsValue :=
  | VUndefined
  | VNull
  | VBoolean (b : bool)
  | VNumber (n : option Z)
  | VString (s : jsstring)
  | VFunction (ref : nat)
  | VObject (ref : nat) (props : list (jsstring * JsValue)).

(** [a === b]. *)
Definition strictEquals (a b : JsValue) : bool :=
  match a, b with
  | VUndefined, VUndefined => true
  | VNull, VNull => true
  | VBoolean x, VBoolean y => Bool.eqb x y
  | VNumber (Some x), VNumber (Some y) => (x =? y)%Z
  | VString x, VString y => strictEq x y
  | VFunction r, VFunction r' => (r =? r')%nat
  | VObject r _, VObject r' _ => (r =? r')%nat
  | _, _ => false
  end.

(** [typeof a]. *)
Definition typeof (a : JsValue) : jsstring :=
  match a with
  | VUndefined => str "undefined"
  | VNull => str "object"
  | VBoolean _ => str "boolean"
  | VNumber _ => str "number"
  | VString _ => str "string"
  | VFunction _ => str "function"
  | VObject _ _ => str "object"
  end.

(** [a == null]. *)
Definition looseNull (a : JsValue) : bool :=
  match a with
  | VUndefined | VNull => true
  | _ => false
  end.

(** [Object.keys(obj)] and [obj[key]]. *)
Definition objectKeys (props : list (jsstring * JsValue)) : list jsstring :=
  List.map fst props.

Fixpoint getProp (props : list (jsstring * JsValue)) (key : jsstring) : JsValue :=
  match props with
  | [] => VUndefined
  | (k, v) :: rest => if strictEq k key then v else getProp rest key
  end.

(** [deepEqual(a, b)].  The loop runs over the properties of [a]; the keys
    of an object being distinct, [aObj[key]] is the value the key comes
    with. *)
Fixpoint deepEqual (a b : JsValue) {struct a} : bool :=
  if strictEquals a b then true
  else if looseNull a || looseNull b then false
  else if negb (strictEq (typeof a) (typeof b)) then false
  else
    match a, b with
    | VObject _ aProps, VObject _ bProps =>
      let bKeys := objectKeys bProps in
      if negb (length (objectKeys aProps) =? length bKeys)%nat then false
      else
        (fix loop (l : list (jsstring * JsValue)) : bool :=
           match l with
           | [] => true
           | (key, aValue) :: rest =>
             if negb (includes bKeys key) then false
             else if negb (deepEqual aValue (getProp bProps key)) then false
             else loop rest
           end) aProps
    | _, _ => false
    end.

(** The keys of an object are distinct, at every depth. *)
Fixpoint distinctKeys (a : JsValue) : Prop :=
  match a with
  | VObject _ props =>
    List.NoDup (objectKeys props) /\
    (fix all (l : list (jsstring * JsValue)) : Prop :=
       match l with
       | [] => True
       | (_, v) :: rest => distinctKeys v /\ all rest
       end) props
  | _ => True
  end.

(** The test made on two objects that are not the same reference. *)
Definition sameProperties (aProps bProps : list (jsstring * JsValue)) : bool :=
  (length aProps =? length bProps)%nat
  && forallb (fun p => includes (objectKeys bProps) (fst p)
                       && deepEqual (snd p) (getProp bProps (fst p)))
       aProps.

(** The objects [{ a: 1, b: [true] }] and [{ b: [true], a: 1 }]. *)
Definition objectAB : JsValue :=
  VObject 1 [(str "a", VNumber (Some 1%Z));
             (str "b", VObject 2 [(str "0", VBoolean true)])].

Definition objectBA : JsValue :=
  VObject 3 [(str "b", VObject 4 [(str "0", VBoolean true)]);
             (str "a", VNumber (Some 1%Z))].

(** ** hooks/useAccessControl.ts and components/AccessControlProvider.tsx:
       the derived state of the feature flags *)

Module FeatureFlags.

(** [featureFlags.find(f => f.id === identifier || f.name === identifier)]. *)
Definition getFeature (featureFlags : list FeatureFlag) (identifier : jsstring) :
    option FeatureFlag :=
  List.find (fun f => strictEq (id f) identifier || strictEq (name f) identifier)
    featureFlags.

(** [featureFlags.filter(f => f.category === category)]: a flag without a
    category has [undefined] there, which no string equals. *)
Definition getFeaturesByCategory (featureFlags : list FeatureFlag)
    (cat : jsstring) : list FeatureFlag :=
  List.filter (fun f => match category f with
                        | Some c => strictEq c cat
                        | None => false
                        end) featureFlags.

Definition enabledFeatures (featureFlags : list FeatureFlag) : list FeatureFlag :=
  List.filter (fun f => enabled f) featureFlags.

Definition disabledFeatures (featureFlags : list FeatureFlag) : list FeatureFlag :=
  List.filter (fun f => negb (enabled f)) featureFlags.

Definition featureCount (featureFlags : list FeatureFlag) : nat :=
  length featureFlags.

Definition enabledCount (featureFlags : list FeatureFlag) : nat :=
  length (List.filter (fun f => enabled f) featureFlags).

End FeatureFlags.

(** ** components/AccessControlProvider.tsx: loading and refreshing *)

Module Provider.

(** What the provider's cache holds: the user's permissions under
    ['user-permissions'], the flags under ['feature-flags']. *)
Inductive CachedData :=
  | CachedPermissions (permissions : UserPermissions)
  | CachedFlags (flags : list FeatureFlag).

(** An [Error], by its message. *)
Record ErrorObject := { message : jsstring }.

(** What a rejected promise carries: an [Error], or something that is not
    one. *)
Inductive Reason :=
  | ReasonError (e : ErrorObject)
  | ReasonOther.

(** The outcome of a fetch, should it be made. *)
Inductive Settled (A : Type) :=
  | Fulfilled (a : A)
  | Rejected (r : Reason).
Arguments Fulfilled {A} a.
Arguments Rejected {A} r.

(** What a loader does to the outside, in order: the state setters it
    calls, the fetch, and [onError].  The console is left out. *)
Inductive Action :=
  | SetUser (v : CachedData)
  | SetIsLoading (b : bool)
  | SetError (e : option ErrorObject)
  | SetFeatureFlags (v : CachedData)
  | SetIsFeatureFlagsLoading (b : bool)
  | SetFeatureFlagsError (e : option ErrorObject)
  | FetchUserPermissions
  | FetchFeatureFlags
  | OnError (e : ErrorObject).

(** The options of the provider that the loaders read; [onError] and
    [fetchFeatureFlags] by whether they are given.  [onError] does not
    raise. *)
Record Config := {
  cacheTimeout : option Number.t;
  enableCache : option bool;
  onError : bool;
  fetchFeatureFlags : bool
}.

Abbreviation cache := (gmap jsstring (CacheEntry CachedData)).

Section Load.

(** The text the two loaders share: the cache key, how the fetched data is
    stored, the three setters, the fetch, and the message of the fallback
    error. *)
Context {A : Type} (cacheKey : jsstring) (inject : A -> CachedData).
Context (setData : CachedData -> Action) (setLoading : bool -> Action).
Context (setFailure : option ErrorObject -> Action) (fetch : Action).
Context (fallbackMessage : jsstring).

(** [now] is the clock when the cache is read, [now'] when the fetched data
    is stored; [fetched] is what the fetch gives if it is made. *)
Definition load (config : Config) (now now' : Z) (fetched : Settled A)
    (providerCache : cache) : list Action * cache :=
  let cacheTimeout := default (Number.ofZ (5 * 60 * 1000)) (cacheTimeout config) in
  let enableCache := default true (enableCache config) in
  let '(cached, providerCache) :=
    if enableCache then MemoryCache.get now cacheKey providerCache
    else (None, providerCache) in
  match cached with
  | Some data =>
    ([setLoading true; setFailure None; setData data; setLoading false;
      setLoading false], providerCache)
  | None =>
    match fetched with
    | Fulfilled data =>
      ([setLoading true; setFailure None; fetch; setData (inject data);
        setLoading false],
       if enableCache
       then MemoryCache.set now' cacheKey (inject data) (Some cacheTimeout)
              providerCache
       else providerCache)
    | Rejected reason =>
      let error :=
        match reason with
        | ReasonError e => e
        | ReasonOther => {| message := fallbackMessage |}
        end in
      ([setLoading true; setFailure None; fetch; setFailure (Some error)]
       ++ (if onError config then [OnError error] else [])
       ++ [setLoading false], providerCache)
    end
  end.

(** The refresh: the cache entry is deleted, then the data loaded. *)
Definition refresh (config : Config) (now now' : Z) (fetched : Settled A)
    (providerCache : cache) : list Action * cache :=
  let providerCache :=
    if default true (enableCache config)
    then MemoryCache.delete cacheKey providerCache
    else providerCache in
  load config now now' fetched providerCache.

End Load.

Definition loadUserPermissions :=
  load (str "user-permissions") CachedPermissions SetUser SetIsLoading SetError
    FetchUserPermissions (str "Failed to load user permissions").

Definition refreshPermissions :=
  refresh (str "user-permissions") CachedPermissions SetUser SetIsLoading SetError
    FetchUserPermissions (str "Failed to load user permissions").

Definition loadFeatureFlags (config : Config) (now now' : Z)
    (fetched : Settled (list FeatureFlag)) (providerCache : cache) :
    list Action * cache :=
  if negb (fetchFeatureFlags config) then ([], providerCache)
  else
    load (str "feature-flags") CachedFlags SetFeatureFlags
      SetIsFeatureFlagsLoading SetFeatureFlagsError FetchFeatureFlags
      (str "Failed to load feature flags") config now now' fetched providerCache.

Definition refreshFeatureFlags (config : Config) (now now' : Z)
    (fetched : Settled (list FeatureFlag)) (providerCache : cache) :
    list Action * cache :=
  let providerCache :=
    if default true (enableCache config)
    then MemoryCache.delete (str "feature-flags") providerCache
    else providerCache in
  loadFeatureFlags config now now' fetched providerCache.

(** The state of the provider, and what the setters make of it. *)
Record State := {
  user : option CachedData;
  isLoading : bool;
  error : option ErrorObject;
  featureFlags : CachedData;
  isFeatureFlagsLoading : bool;
  featureFlagsError : option ErrorObject
}.

Definition apply (st : State) (action : Action) : State :=
  match action with
  | SetUser v =>
    {| user := Some v; isLoading := isLoading st; error := error st;
       featureFlags := featureFlags st;
       isFeatureFlagsLoading := isFeatureFlagsLoading st;
       featureFlagsError := featureFlagsError st |}
  | SetIsLoading b =>
    {| user := user st; isLoading := b; error := error st;
       featureFlags := featureFlags st;
       isFeatureFlagsLoading := isFeatureFlagsLoading st;
       featureFlagsError := featureFlagsError st |}
  | SetError e =>
    {| user := user st; isLoading := isLoading st; error := e;
       featureFlags := featureFlags st;
       isFeatureFlagsLoading := isFeatureFlagsLoading st;
       featureFlagsError := featureFlagsError st |}
  | SetFeatureFlags v =>
    {| user := user st; isLoading := isLoading st; error := error st;
       featureFlags := v;
       isFeatureFlagsLoading := isFeatureFlagsLoading st;
       featureFlagsError := featureFlagsError st |}
  | SetIsFeatureFlagsLoading b =>
    {| user := user st; isLoading := isLoading st; error := error st;
       featureFlags := featureFlags st;
       isFeatureFlagsLoading := b;
       featureFlagsError := featureFlagsError st |}
  | SetFeatureFlagsError e =>
    {| user := user st; isLoading := isLoading st; error := error st;
       featureFlags := featureFlags st;
       isFeatureFlagsLoading := isFeatureFlagsLoading st;
       featureFlagsError := e |}
  | FetchUserPermissions | FetchFeatureFlags | OnError _ => st
  end.

(** The state after the actions of a loader. *)
Definition after (st : State) (actions : list Action) : State :=
  fold_left apply actions st.

(** How many times an action occurs. *)
Definition occurrences (p : Action -> bool) (actions : list Action) : nat :=
  length (List.filter p actions).

Definition isFetch (action : Action) : bool :=
  match action with
  | FetchUserPermissions | FetchFeatureFlags => true
  | _ => false
  end.

Definition isOnError (action : Action) : bool :=
  match action with
  | OnError _ => true
  | _ => false
  end.

End Provider.

(** ** The hook [useAccessControl] and the guards *)

(** The provider's state on mount. *)
Definition providerInitial (config : Provider.Config) : Provider.State :=
  {| Provider.user := None; Provider.isLoading := true; Provider.error := None;
     Provider.featureFlags := Provider.CachedFlags [];
     Provider.isFeatureFlagsLoading := Provider.fetchFeatureFlags config;
     Provider.featureFlagsError := None |}.

Definition providerDefaults : Provider.Config :=
  {| Provider.cacheTimeout := None; Provider.enableCache := None;
     Provider.onError := false; Provider.fetchFeatureFlags := false |}.

(** The type [AccessControlResult] of the hook's result. *)
Module AccessControlResult.

Record DebugInfo := {
  enabledFeatures : list jsstring;
  userPermissions : list jsstring;
  userRoles : list jsstring;
  hasFeatureCheck : bool;
  hasPermissionCheck : bool
}.

Record t := {
  hasAccess : bool;
  hasFeatureAccess : bool;
  hasPermissionAccess : bool;
  isFeatureFlagsLoading : bool;
  featureFlagsError : option Provider.ErrorObject;
  debugInfo : DebugInfo
}.

End AccessControlResult.

(** JavaScript's truthiness, for the nodes a guard is given. *)
Definition truthy (v : JsValue) : bool :=
  match v with
  | VUndefined | VNull => false
  | VBoolean b => b
  | VNumber None => false
  | VNumber (Some n) => negb (n =? 0)%Z
  | VString s => match s with [] => false | _ :: _ => true end
  | VFunction _ | VObject _ _ => true
  end.

Module UseAccessControl.

Record Options := {
  enableCache : option bool;
  debugMode : option bool
}.

(** The six [useState] values of the hook.  The hook calls none of their
    setters, so they are the initial ones at every render. *)
Record State := {
  userPermissions : option UserPermissions;
  featureFlags : list FeatureFlag;
  isLoading : bool;
  isFeatureFlagsLoading : bool;
  _error : option Provider.ErrorObject;
  _featureFlagsError : option Provider.ErrorObject
}.

Definition initial : State :=
  {| userPermissions := None; featureFlags := []; isLoading := true;
     isFeatureFlagsLoading := true; _error := None; _featureFlagsError := None |}.

Abbreviation cache := (gmap jsstring (CacheEntry AccessControlResult.t)).

Definition evaluateAccess (config : ConfigObject) (st : State) : Evaluation :=
  match userPermissions st with
  | None =>
    {| hasAccess := false; hasFeatureAccess := false;
       hasPermissionAccess := false; hasFeatureCheck := false;
       hasPermissionCheck := false |}
  | Some userPermissions =>
    evaluateAccessControl (fields config) userPermissions (featureFlags st)
  end.

(** The result built from an evaluation. *)
Definition accessControlResult (config : ConfigObject) (st : State) :
    AccessControlResult.t :=
  let result := evaluateAccess config st in
  let debugInfo :=
    {| AccessControlResult.enabledFeatures :=
         map id (List.filter enabled (featureFlags st));
       AccessControlResult.userPermissions :=
         from_option permissions [] (userPermissions st);
       AccessControlResult.userRoles :=
         from_option roles [] (userPermissions st);
       AccessControlResult.hasFeatureCheck := hasFeatureCheck result;
       AccessControlResult.hasPermissionCheck := hasPermissionCheck result |} in
  {| AccessControlResult.hasAccess := hasAccess result;
     AccessControlResult.hasFeatureAccess := hasFeatureAccess result;
     AccessControlResult.hasPermissionAccess := hasPermissionAccess result;
     AccessControlResult.isFeatureFlagsLoading := isFeatureFlagsLoading st;
     AccessControlResult.featureFlagsError := _featureFlagsError st;
     AccessControlResult.debugInfo := debugInfo |}.

(** One render of the hook's body with the state [st]; [now] is the clock
    when the global cache is read, [now'] when the result is stored. *)
Definition render (st : State) (config : ConfigObject)
    (options : Options) (now now' : Z) (globalCache : cache) :
    result (AccessControlResult.t * cache) :=
  let enableCache := default true (enableCache options) in
  let cacheKey :=
    match userPermissions st with
    | Some userPermissions =>
      if negb enableCache then Ok None
      else match generateCacheKey config (userId userPermissions) with
           | Ok key => Ok (Some key)
           | Throw e => Throw e
           end
    | None => Ok None
    end in
  match cacheKey with
  | Throw e => Throw e
  | Ok cacheKey =>
    let '(cachedResult, globalCache) :=
      match cacheKey with
      | Some key =>
        if negb (truthyString cacheKey) || negb enableCache
        then (None, globalCache)
        else MemoryCache.get now key globalCache
      | None => (None, globalCache)
      end in
    let loaded := negb (isLoading st) && negb (isFeatureFlagsLoading st) in
    match cachedResult with
    | Some cachedResult =>
      if loaded then Ok (cachedResult, globalCache)
      else Ok (accessControlResult config st, globalCache)
    | None =>
      Ok (accessControlResult config st,
          match cacheKey with
          | Some key =>
            if truthyString cacheKey && enableCache && loaded
            then MemoryCache.set now' key (accessControlResult config st) None
                   globalCache
            else globalCache
          | None => globalCache
          end)
    end
  end.

(** The hook: its body with the state it has at every render. *)
Definition useAccessControl := render initial.

Definition useHasAccess (config : ConfigObject) (options : Options)
    (now now' : Z) (globalCache : cache) : result (bool * cache) :=
  match useAccessControl config options now now' globalCache with
  | Ok (accessResult, globalCache) =>
    Ok (AccessControlResult.hasAccess accessResult, globalCache)
  | Throw e => Throw e
  end.

End UseAccessControl.

(** What a guard renders: nothing, or a fragment around a node. *)
Inductive Rendered :=
  | RenderNull
  | Fragment (children : JsValue).

(** The guards.  [config] stands for the seven access props; the guard
    passes them on in an object literal that lists them in the order of the
    interface, and whose [requireBoth] is [false] when the prop is not
    given. *)
Definition guardConfig (config : AccessControlConfig) : ConfigObject :=
  {| fields := withRequireBoth (Some (default false (requireBoth config))) config;
     ownKeys := interfaceKeys |}.

Definition guardOptions (debugMode : option bool) : UseAccessControl.Options :=
  {| UseAccessControl.enableCache := None;
     UseAccessControl.debugMode := Some (default false debugMode) |}.

Definition AccessGuard (config : AccessControlConfig)
    (children fallback loading : JsValue) (debugMode : option bool)
    (now now' : Z) (globalCache : UseAccessControl.cache) :
    result (Rendered * UseAccessControl.cache) :=
  match UseAccessControl.useAccessControl (guardConfig config)
          (guardOptions debugMode) now now' globalCache with
  | Throw e => Throw e
  | Ok (accessResult, globalCache) =>
    Ok (if AccessControlResult.isFeatureFlagsLoading accessResult
        then (if truthy loading then Fragment loading else RenderNull)
        else if negb (AccessControlResult.hasAccess accessResult)
        then (if truthy fallback then Fragment fallback else RenderNull)
        else Fragment children,
        globalCache)
  end.

(** [RouteGuard]: what it renders, and whether its effect calls
    [onAccessDenied]. *)
Definition RouteGuard (config : AccessControlConfig)
    (children loading : JsValue) (onAccessDenied : bool)
    (debugMode : option bool)
    (now now' : Z) (globalCache : UseAccessControl.cache) :
    result (Rendered * bool * UseAccessControl.cache) :=
  match UseAccessControl.useAccessControl (guardConfig config)
          (guardOptions debugMode) now now' globalCache with
  | Throw e => Throw e
  | Ok (accessResult, globalCache) =>
    let denied :=
      negb (AccessControlResult.isFeatureFlagsLoading accessResult)
      && negb (AccessControlResult.hasAccess accessResult) in
    Ok (if AccessControlResult.isFeatureFlagsLoading accessResult
        then (if truthy loading then Fragment loading else RenderNull)
        else if negb (AccessControlResult.hasAccess accessResult)
        then RenderNull
        else Fragment children,
        denied && onAccessDenied,
        globalCache)
  end.

(** * Properties *)

(** ** The evaluator *)

Section Evaluator.

Implicit Types (config : AccessControlConfig) (user : UserPermissions).
Implicit Types (F : list FeatureFlag) (P L : list jsstring) (x : jsstring).

Lemma strictEq_true (a b : jsstring) : strictEq a b = true <-> a = b.
Proof. unfold strictEq. apply bool_decide_eq_true. Qed.

Lemma strictEq_false (a b : jsstring) : strictEq a b = false <-> a <> b.
Proof. unfold strictEq. apply bool_decide_eq_false. Qed.

Lemma includes_true P x : includes P x = true <-> x ∈ P.
Proof.
  unfold includes. rewrite existsb_exists, list_elem_of_In. split.
  - intros (y & Hy & Heq). apply strictEq_true in Heq. by subst.
  - intros Hx. exists x. split; [done | by apply strictEq_true].
Qed.

Lemma flagMatches_true x (f : FeatureFlag) :
  flagMatches x f = true <-> id f = x \/ name f = x.
Proof.
  unfold flagMatches. rewrite orb_true_iff, !strictEq_true. tauto.
Qed.

Lemma flagMatches_false x (f : FeatureFlag) :
  flagMatches x f = false <-> id f <> x /\ name f <> x.
Proof.
  unfold flagMatches. rewrite orb_false_iff, !strictEq_false. tauto.
Qed.

(** [find] returns the first element that satisfies the predicate. *)
Lemma find_first {A} (p : A -> bool) (l : list A) (a : A) :
  List.find p l = Some a <->
  exists pre post, l = pre ++ a :: post /\ p a = true /\
                   forall b, In b pre -> p b = false.
Proof.
  induction l as [|b l IH]; simpl.
  - split; [done |]. intros (pre & post & Heq & _). by destruct pre.
  - destruct (p b) eqn:Hb.
    + split.
      * intros [= ->]. exists [], l. by repeat split.
      * intros (pre & post & Heq & Ha & Hpre). destruct pre as [|b' pre].
        -- simpl in Heq. congruence.
        -- simpl in Heq. injection Heq as <- _.
           rewrite (Hpre b) in Hb; [done | by left].
    + rewrite IH. split.
      * intros (pre & post & -> & Ha & Hpre). exists (b :: pre), post.
        repeat split; [done |]. intros b' [<- | Hin]; auto.
      * intros (pre & post & Heq & Ha & Hpre). destruct pre as [|b' pre].
        -- simpl in Heq. injection Heq as -> _. congruence.
        -- simpl in Heq. injection Heq as <- ->. exists pre, post.
           repeat split; [done |]. intros b' Hin. apply Hpre. by right.
Qed.

Lemma hasFeature_true F x : hasFeature F x = true <-> resolvesEnabled F x.
Proof.
  unfold hasFeature, resolvesEnabled, resolvesTo. split.
  - destruct (List.find _ F) as [f|] eqn:Hfind; [| done].
    intros Hen. exists f. split; [| done].
    apply find_first in Hfind as (pre & post & -> & Hm & Hpre).
    exists pre, post. split; [done |].
    split; [by apply flagMatches_true |].
    intros g Hg. by apply flagMatches_false, Hpre.
  - intros (f & (pre & post & -> & Hm & Hpre) & Hen).
    assert (List.find (flagMatches x) (pre ++ f :: post) = Some f) as ->; [| done].
    apply find_first. exists pre, post.
    split; [done |]. split; [by apply flagMatches_true |].
    intros g Hg. by apply flagMatches_false, Hpre.
Qed.

(** Without two flags answering to one identifier, resolving is finding
    a flag with that [id] or [name]. *)
Lemma resolvesEnabled_unambiguous F x :
  (forall f g, In f F -> In g F ->
     flagMatches x f = true -> flagMatches x g = true -> f = g) ->
  resolvesEnabled F x <->
  exists f, In f F /\ (id f = x \/ name f = x) /\ enabled f = true.
Proof.
  intros Huniq. split.
  - intros (f & (pre & post & -> & Hm & _) & Hen). exists f.
    split; [| done]. apply in_or_app. right. by left.
  - intros (f & Hin & Hm & Hen). apply hasFeature_true. unfold hasFeature.
    destruct (List.find _ F) as [g|] eqn:Hfind.
    + apply find_some in Hfind as [Hg Hgm].
      rewrite <- (Huniq f g); auto. by apply flagMatches_true.
    + apply (find_none _ _ Hfind) in Hin.
      apply flagMatches_false in Hin. tauto.
Qed.

End Evaluator.

(** The scenarios of the specification. *)
Example scenario_missing_permission :
  hasAccess (evaluateAccessControl (permissionConfig (str "WRITE_USERS"))
               (userWith [str "READ_USERS"]) []) = false.
Proof. reflexivity. Qed.

Example scenario_all_permissions :
  hasAccess (evaluateAccessControl
               (allPermissionsConfig [str "READ_USERS"; str "WRITE_USERS"])
               (userWith [str "READ_USERS"; str "WRITE_USERS"]) []) = true.
Proof. reflexivity. Qed.

Example scenario_any_feature :
  hasAccess (evaluateAccessControl (anyFeatureConfig [str "f1"; str "f2"])
               (userWith []) scenarioFlags) = true.
Proof. reflexivity. Qed.

Example scenario_all_features :
  hasAccess (evaluateAccessControl (allFeaturesConfig [str "f1"; str "f2"])
               (userWith []) scenarioFlags) = false.
Proof. reflexivity. Qed.

(** C1.  The final [hasAccess] of [evaluateAccessControl] follows the
    combination rule of the specification: no access when neither check is
    requested, whatever [requireBoth]; with both requested, the AND of the
    two results under [requireBoth] and their OR otherwise; with one
    requested, that result alone.  A check counts as requested when the
    evaluation reports it ([hasFeatureCheck], [hasPermissionCheck]), which is
    when its single field is a non-empty string or one of its arrays is
    non-empty. *)
Theorem evaluateAccessControl_hasAccess
    (config : AccessControlConfig) (user : UserPermissions) (F : list FeatureFlag) :
  let r := evaluateAccessControl config user F in
  let rb := default false (requireBoth config) in
  hasAccess r =
    specFinalAccess rb (hasFeatureCheck r) (hasPermissionCheck r)
      (hasFeatureAccess r) (hasPermissionAccess r) /\
  hasAccess r =
    specFinalAccess rb (featureCheckEffective config)
      (permissionCheckEffective config)
      (checkFeatureAccess config F) (checkPermissionAccess config user).
Proof.
  assert (Hf : truthyString (feature config) || nonEmptyArray (anyFeature config)
               || nonEmptyArray (allFeatures config)
               = featureCheckEffective config).
  { unfold featureCheckEffective.
    by destruct (feature config) as [[|]|], (anyFeature config) as [[|]|],
      (allFeatures config) as [[|]|]. }
  assert (Hp : truthyString (permission config)
               || nonEmptyArray (anyPermission config)
               || nonEmptyArray (allPermissions config)
               = permissionCheckEffective config).
  { unfold permissionCheckEffective.
    by destruct (permission config) as [[|]|], (anyPermission config) as [[|]|],
      (allPermissions config) as [[|]|]. }
  simpl. rewrite Hf, Hp. unfold calculateFinalAccess, specFinalAccess.
  by destruct (featureCheckEffective config), (permissionCheckEffective config),
    (default false (requireBoth config)).
Qed.

(** C2, as stated, fails: [{ feature: '' }] sets [feature], so a feature
    check is requested in the specification's sense, yet the evaluation
    reports [hasFeatureCheck = false]; likewise [{ permission: '' }]. *)
Lemma hasFeatureCheck_empty_feature_string :
  featureCheckRequested emptyFeatureConfig = true /\
  hasFeatureCheck (evaluateAccessControl emptyFeatureConfig noUser []) = false /\
  permissionCheckRequested (onlyEmptyPermission None) = true /\
  hasPermissionCheck (evaluateAccessControl (onlyEmptyPermission None) noUser [])
    = false.
Proof. repeat split; reflexivity. Qed.

(** C2, amended.  [hasFeatureCheck] and [hasPermissionCheck] are true exactly
    when the corresponding check is requested, where the single field counts
    as unset when it is [undefined] or the empty string; when no feature check
    is requested in this sense [hasFeatureAccess] is [true], and when no
    permission check is requested [hasPermissionAccess] is [true]. *)
Theorem evaluateAccessControl_checks
    (config : AccessControlConfig) (user : UserPermissions) (F : list FeatureFlag) :
  let r := evaluateAccessControl config user F in
  hasFeatureCheck r = featureCheckEffective config /\
  hasPermissionCheck r = permissionCheckEffective config /\
  (featureCheckEffective config = false -> hasFeatureAccess r = true) /\
  (permissionCheckEffective config = false -> hasPermissionAccess r = true).
Proof.
  destruct config as [f af lf p ap lp rb]. simpl.
  unfold featureCheckEffective, permissionCheckEffective,
    checkFeatureAccess, checkPermissionAccess. simpl.
  repeat split.
  - by destruct f as [[|]|], af as [[|]|], lf as [[|]|].
  - by destruct p as [[|]|], ap as [[|]|], lp as [[|]|].
  - by destruct f as [[|]|], af as [[|]|], lf as [[|]|].
  - by destruct p as [[|]|], ap as [[|]|], lp as [[|]|].
Qed.

(** C3.  [hasAnyFeature F L] holds iff some id of [L] resolves to an enabled
    flag of [F], [hasAllFeatures F L] iff every id of [L] does, where an id
    resolves to the first flag whose [id] or [name] equals it; on an empty
    [L] the first is false and the second true.  [hasPermission P x] holds
    iff [x] is a member of [P]; [hasAnyPermission] and [hasAllPermissions]
    are its "some" and "every". *)
Theorem membership_checks (F : list FeatureFlag) (P L : list jsstring) (x : jsstring) :
  (hasAnyFeature F L = true <-> exists y, y ∈ L /\ resolvesEnabled F y) /\
  (hasAllFeatures F L = true <-> forall y, y ∈ L -> resolvesEnabled F y) /\
  hasAnyFeature F [] = false /\
  hasAllFeatures F [] = true /\
  (hasPermission P x = true <-> x ∈ P) /\
  (hasAnyPermission P L = true <-> exists y, y ∈ L /\ y ∈ P) /\
  (hasAllPermissions P L = true <-> forall y, y ∈ L -> y ∈ P) /\
  hasAnyPermission P [] = false /\
  hasAllPermissions P [] = true.
Proof.
  unfold hasAnyFeature, hasAllFeatures, hasPermission, hasAnyPermission,
    hasAllPermissions.
  repeat match goal with |- _ /\ _ => split end; try reflexivity.
  - rewrite existsb_exists. setoid_rewrite hasFeature_true.
    by setoid_rewrite list_elem_of_In.
  - rewrite forallb_forall. setoid_rewrite hasFeature_true.
    by setoid_rewrite list_elem_of_In.
  - apply includes_true.
  - rewrite existsb_exists. setoid_rewrite includes_true.
    by setoid_rewrite list_elem_of_In.
  - rewrite forallb_forall. setoid_rewrite includes_true.
    by setoid_rewrite list_elem_of_In.
Qed.

(** C10.  An empty-string [feature] (or [permission]) is evaluated exactly
    as an absent one; a config with nothing but [feature: ''] has
    [hasFeatureCheck = false], [hasFeatureAccess = true] and, by the default
    denial, [hasAccess = false]; likewise for [permission: '']. *)
Theorem evaluateAccessControl_empty_string
    (config : AccessControlConfig) (user : UserPermissions) (F : list FeatureFlag)
    (rb : option bool) :
  evaluateAccessControl (withFeature (Some []) config) user F
    = evaluateAccessControl (withFeature None config) user F /\
  evaluateAccessControl (withPermission (Some []) config) user F
    = evaluateAccessControl (withPermission None config) user F /\
  evaluateAccessControl (onlyEmptyFeature rb) user F
    = {| hasAccess := false; hasFeatureAccess := true;
         hasPermissionAccess := true; hasFeatureCheck := false;
         hasPermissionCheck := false |} /\
  evaluateAccessControl (onlyEmptyPermission rb) user F
    = {| hasAccess := false; hasFeatureAccess := true;
         hasPermissionAccess := true; hasFeatureCheck := false;
         hasPermissionCheck := false |}.
Proof. repeat split; reflexivity. Qed.

(** ** Numbers *)

Module NumberFacts.
Import Number.
Local Open Scope Z_scope.

Local Ltac Zify.zify_post_hook ::= Z.to_euclidean_division_equations.

(** [0.1 + 0.2] is [0.30000000000000004], the Number after [0.3]. *)
Example add_tenths :
  add (ofDyadic 7205759403792794 (-56)) (ofDyadic 7205759403792794 (-55))
  = ofDyadic 5404319552844596 (-54) /\
  ltb (ofDyadic 5404319552844595 (-54)) (ofDyadic 5404319552844596 (-54)) = true.
Proof. by vm_compute. Qed.

(** Above [2^53] the odd integers are not Numbers: [2^53 + 1] is [2^53] and
    [2^53 + 3] is [2^53 + 4], the even neighbours. *)
Example add_ties :
  add (ofZ (2 ^ 53)) (ofZ 1) = ofZ (2 ^ 53) /\
  add (ofZ (2 ^ 53)) (ofZ 3) = ofZ (2 ^ 53 + 4) /\
  ofZ (2 ^ 53 + 1) = ofZ (2 ^ 53).
Proof. by vm_compute. Qed.

(** The largest Number added to itself is [Infinity]; the smallest one
    added to itself is twice itself. *)
Example add_extremes :
  add (ofDyadic (2 ^ 53 - 1) 971) (ofDyadic (2 ^ 53 - 1) 971) = Infinity false /\
  add (ofDyadic 1 (-1074)) (ofDyadic 1 (-1074)) = ofDyadic 2 (-1074) /\
  add (Infinity false) (Infinity true) = NaN.
Proof. by vm_compute. Qed.

(** At the clock 1730000000000 the sum with [1.00001] (the Number
    [4503644663366770 * 2^-52]) is not above the clock a millisecond
    later. *)
Example add_clock :
  ltb (ofZ 1730000000001)
    (add (ofZ 1730000000000) (ofDyadic 4503644663366770 (-52))) = false /\
  ltb (ofZ 1) (ofDyadic 4503644663366770 (-52)) = true.
Proof. by vm_compute. Qed.

(** [roundTiesToEven] keeps the multiples of [2^k] and is monotone. *)
Lemma roundTiesToEven_multiple k a n :
  0 < k -> a = n * 2 ^ k -> roundTiesToEven k a = a.
Proof.
  intros Hk ->. unfold roundTiesToEven.
  assert (0 < 2 ^ k) by (apply Z.pow_pos_nonneg; lia).
  assert (0 < 2 ^ (k - 1)) by (apply Z.pow_pos_nonneg; lia).
  rewrite Z.div_mul, Z.mod_mul by lia.
  replace (2 ^ (k - 1) <? 0) with false by (symmetry; apply Z.ltb_ge; lia).
  replace (0 =? 2 ^ (k - 1)) with false by (symmetry; apply Z.eqb_neq; lia).
  done.
Qed.

Lemma roundTiesToEven_mono k a b :
  0 < k -> a <= b -> roundTiesToEven k a <= roundTiesToEven k b.
Proof.
  intros Hk Hab. unfold roundTiesToEven.
  assert (HP : 0 < 2 ^ k) by (apply Z.pow_pos_nonneg; lia).
  set (P := 2 ^ k) in *. set (h := 2 ^ (k - 1)).
  apply Z.mul_le_mono_nonneg_r; [lia |].
  pose proof (Z.div_le_mono a b P HP Hab) as Hq.
  destruct (Z.eq_dec (a / P) (b / P)) as [Heq | Hne].
  - rewrite <- Heq.
    assert (Hr : a mod P <= b mod P).
    { rewrite !Z.mod_eq by lia. rewrite <- Heq. lia. }
    destruct (Z.ltb_spec h (a mod P)), (Z.ltb_spec h (b mod P)),
      (Z.eqb_spec (a mod P) h), (Z.eqb_spec (b mod P) h),
      (Z.odd (a / P)); simpl; lia.
  - destruct (_ || _), (_ || _); lia.
Qed.

Lemma roundTiesToEven_le k a n :
  0 < k -> a <= n * 2 ^ k -> roundTiesToEven k a <= n * 2 ^ k.
Proof.
  intros Hk Ha. rewrite <- (roundTiesToEven_multiple k (n * 2 ^ k) n) by done.
  by apply roundTiesToEven_mono.
Qed.

Lemma roundTiesToEven_ge k a n :
  0 < k -> n * 2 ^ k <= a -> n * 2 ^ k <= roundTiesToEven k a.
Proof.
  intros Hk Ha. rewrite <- (roundTiesToEven_multiple k (n * 2 ^ k) n) at 1 by done.
  by apply roundTiesToEven_mono.
Qed.

Lemma pow2_multiple (k l : Z) : 0 <= k <= l -> 2 ^ l = 2 ^ (l - k) * 2 ^ k.
Proof. intros H. rewrite <- Z.pow_add_r by lia. f_equal. lia. Qed.

(** A rounded magnitude stays in the binade of the magnitude. *)
Lemma roundMagnitude_bounds a :
  0 < a -> 2 ^ Z.log2 a <= roundMagnitude a <= 2 ^ (Z.log2 a + 1).
Proof.
  intros Ha. unfold roundMagnitude.
  pose proof (Z.log2_spec a Ha) as [Hlo Hhi].
  pose proof (Z.log2_nonneg a) as Hl.
  replace (Z.succ (Z.log2 a)) with (Z.log2 a + 1) in Hhi by lia.
  destruct (Z.ltb_spec 0 (Z.log2 a + 1 - 53)) as [Hk|Hk]; [| lia].
  split.
  - rewrite (pow2_multiple (Z.log2 a + 1 - 53) (Z.log2 a)) by lia.
    apply roundTiesToEven_ge; [done |].
    rewrite <- pow2_multiple by lia. done.
  - rewrite (pow2_multiple (Z.log2 a + 1 - 53) (Z.log2 a + 1)) by lia.
    apply roundTiesToEven_le; [done |].
    rewrite <- pow2_multiple by lia. lia.
Qed.

Lemma roundMagnitude_0 : roundMagnitude 0 = 0.
Proof. reflexivity. Qed.

Lemma roundMagnitude_mono a b :
  0 <= a <= b -> roundMagnitude a <= roundMagnitude b.
Proof.
  intros [Ha Hab].
  destruct (Z.eq_dec a 0) as [-> | Ha0].
  { rewrite roundMagnitude_0. destruct (Z.eq_dec b 0) as [-> | Hb0]; [done |].
    pose proof (roundMagnitude_bounds b ltac:(lia)) as [Hlo _].
    pose proof (Z.pow_pos_nonneg 2 (Z.log2 b) ltac:(lia) (Z.log2_nonneg b)). lia. }
  pose proof (Z.log2_le_mono a b Hab) as Hl.
  destruct (Z.eq_dec (Z.log2 a) (Z.log2 b)) as [Heq | Hne].
  - unfold roundMagnitude. rewrite Heq.
    destruct (Z.ltb_spec 0 (Z.log2 b + 1 - 53)); [| done].
    by apply roundTiesToEven_mono.
  - pose proof (roundMagnitude_bounds a ltac:(lia)) as [_ Hhi].
    pose proof (roundMagnitude_bounds b ltac:(lia)) as [Hlo _].
    pose proof (Z.pow_le_mono_r 2 (Z.log2 a + 1) (Z.log2 b) ltac:(lia) ltac:(lia)).
    lia.
Qed.

Lemma roundMagnitude_nonneg a : 0 <= a -> 0 <= roundMagnitude a.
Proof.
  intros Ha. rewrite <- roundMagnitude_0. apply roundMagnitude_mono. lia.
Qed.

(** Rounding is monotone. *)
Lemma round_mono u v : u <= v -> leb (round u) (round v) = true.
Proof.
  intros Huv. unfold round.
  pose proof (roundMagnitude_nonneg (Z.abs u) (Z.abs_nonneg u)) as Hu.
  pose proof (roundMagnitude_nonneg (Z.abs v) (Z.abs_nonneg v)) as Hv.
  assert (Hmono : Z.abs u <= Z.abs v ->
                  roundMagnitude (Z.abs u) <= roundMagnitude (Z.abs v))
    by (intros; apply roundMagnitude_mono; lia).
  assert (Hmono' : Z.abs v <= Z.abs u ->
                   roundMagnitude (Z.abs v) <= roundMagnitude (Z.abs u))
    by (intros; apply roundMagnitude_mono; lia).
  destruct (Z.leb_spec overflow (roundMagnitude (Z.abs u))),
    (Z.leb_spec overflow (roundMagnitude (Z.abs v))),
    (Z.ltb_spec u 0), (Z.ltb_spec v 0); simpl; try done; try lia;
    try (apply Z.leb_le; nia).
Qed.

(** A whole multiple of [2^-1074] of at most 53 significant bits, below
    [2^1024], is a Number. *)
Lemma round_exact m e :
  Z.abs m <= 2 ^ 53 -> 0 <= e -> e + 53 < 2098 ->
  round (m * 2 ^ e) = Finite (m * 2 ^ e).
Proof.
  intros Hm He Hov. unfold round.
  assert (HP : 0 < 2 ^ e) by (apply Z.pow_pos_nonneg; lia).
  assert (Habs : Z.abs (m * 2 ^ e) = Z.abs m * 2 ^ e)
    by (rewrite Z.abs_mul; f_equal; lia).
  assert (Hexact : roundMagnitude (Z.abs (m * 2 ^ e)) = Z.abs (m * 2 ^ e)).
  { rewrite Habs. unfold roundMagnitude.
    destruct (Z.eq_dec m 0) as [-> | Hm0]; [done |].
    rewrite Z.log2_mul_pow2 by lia.
    destruct (Z.ltb_spec 0 (e + Z.log2 (Z.abs m) + 1 - 53)) as [Hk|]; [| done].
    destruct (Z.eq_dec (Z.abs m) (2 ^ 53)) as [-> | Hne].
    - rewrite Z.log2_pow2 by lia.
      apply (roundTiesToEven_multiple _ _ (2 ^ 52)); [lia |].
      rewrite <- !Z.pow_add_r by lia. f_equal. lia.
    - assert (Z.log2 (Z.abs m) < 53) by (apply Z.log2_lt_pow2; lia).
      apply (roundTiesToEven_multiple _ _
               (Z.abs m * 2 ^ (e - (e + Z.log2 (Z.abs m) + 1 - 53)))); [lia |].
      rewrite <- Z.mul_assoc, <- Z.pow_add_r by lia. do 2 f_equal. lia. }
  rewrite Hexact.
  assert (Z.abs (m * 2 ^ e) < overflow).
  { rewrite Habs. unfold overflow.
    apply Z.le_lt_trans with (2 ^ 53 * 2 ^ e).
    - apply Z.mul_le_mono_nonneg_r; lia.
    - rewrite <- Z.pow_add_r by lia. apply Z.pow_lt_mono_r; lia. }
  destruct (Z.leb_spec overflow (Z.abs (m * 2 ^ e))); [lia |].
  f_equal. lia.
Qed.

(** The integers up to [2^53] in magnitude are Numbers, and on them [+] and
    [<] are those of the integers. *)
Lemma ofZ_exact n : Z.abs n <= 2 ^ 53 -> ofZ n = Finite (n * 2 ^ 1074).
Proof. intros Hn. apply round_exact; lia. Qed.

Lemma add_ofZ a b :
  Z.abs a <= 2 ^ 53 -> Z.abs b <= 2 ^ 53 -> Z.abs (a + b) <= 2 ^ 53 ->
  add (ofZ a) (ofZ b) = ofZ (a + b).
Proof.
  intros Ha Hb Hab. rewrite (ofZ_exact a), (ofZ_exact b) by done. simpl.
  unfold ofZ. f_equal. lia.
Qed.

Lemma ofZ_mono a b : a <= b -> leb (ofZ a) (ofZ b) = true.
Proof.
  intros Hab. apply round_mono.
  apply Z.mul_le_mono_nonneg_r; [| done]. apply Z.pow_nonneg. lia.
Qed.

Lemma leb_ltb_trans x y z : leb x y = true -> ltb y z = true -> ltb x z = true.
Proof.
  destruct x as [|[]|u], y as [|[]|v], z as [|[]|w]; simpl; try done.
  intros ?%Z.leb_le ?%Z.ltb_lt. apply Z.ltb_lt. lia.
Qed.

Lemma leb_not_ltb x y : leb x y = true -> ltb y x = false.
Proof.
  destruct x as [|[]|u], y as [|[]|v]; simpl; try done.
  intros ?%Z.leb_le. apply Z.ltb_ge. lia.
Qed.

(** Against an integer that is a Number, any integer compares as in the
    integers, rounded or not. *)
Lemma ltb_ofZ n N : - 2 ^ 53 < N <= 2 ^ 53 -> ltb (ofZ n) (ofZ N) = (n <? N).
Proof.
  intros HN. destruct (Z.ltb_spec n N) as [Hlt | Hge].
  - apply leb_ltb_trans with (ofZ (N - 1)).
    + apply ofZ_mono. lia.
    + rewrite !ofZ_exact by lia. simpl. apply Z.ltb_lt.
      apply Z.mul_lt_mono_pos_r; [by apply Z.pow_pos_nonneg | lia].
  - apply leb_not_ltb. by apply ofZ_mono.
Qed.

(** A ttl that is not above 0 gives a sum that is not above the clock. *)
Lemma ltb_add_not_positive n ttl :
  Z.abs n <= 2 ^ 53 -> ltb (ofZ 0) ttl = false ->
  ltb (ofZ n) (add (ofZ n) ttl) = false.
Proof.
  intros Hn Httl. rewrite (ofZ_exact 0) in Httl by done.
  rewrite (ofZ_exact n) by done.
  destruct ttl as [|[]|w]; try done.
  cbn [ltb] in Httl. apply Z.ltb_ge in Httl.
  change (add (Finite (n * 2 ^ 1074)) (Finite w)) with (round (n * 2 ^ 1074 + w)).
  apply leb_not_ltb. rewrite <- (round_exact n 1074) by lia.
  apply round_mono. lia.
Qed.

End NumberFacts.

(** ** The cache *)

Section MemoryCacheProperties.

Context {T : Type}.
Implicit Types (cache : gmap jsstring (CacheEntry T)) (key : jsstring).
Implicit Types (now : Z) (ttl : Number.t) (v : T).

Lemma get_absent now key cache :
  cache !! key = None -> MemoryCache.get now key cache = (None, cache).
Proof. intros Hk. unfold MemoryCache.get. by rewrite Hk. Qed.

Lemma get_valid now key cache entry :
  cache !! key = Some entry -> isCacheValid now entry = true ->
  MemoryCache.get now key cache = (Some (data entry), cache).
Proof. intros Hk Hlt. unfold MemoryCache.get. by rewrite Hk, Hlt. Qed.

Lemma get_expired now key cache entry :
  cache !! key = Some entry -> isCacheValid now entry = false ->
  MemoryCache.get now key cache = (None, base.delete key cache).
Proof. intros Hk Hle. unfold MemoryCache.get. by rewrite Hk, Hle. Qed.

(** A read never yields the data of an entry that is not before its
    expiry. *)
Lemma get_Some_valid now key cache v :
  fst (MemoryCache.get now key cache) = Some v ->
  exists entry, cache !! key = Some entry /\ data entry = v /\
                isCacheValid now entry = true.
Proof.
  unfold MemoryCache.get.
  destruct (cache !! key) as [entry|]; [| done].
  destruct (isCacheValid now entry) eqn:Hvalid; [| done].
  intros [= <-]. by exists entry.
Qed.

(** A read of [key] leaves every other key as it was. *)
Lemma get_other now key key' cache :
  key <> key' -> snd (MemoryCache.get now key cache) !! key' = cache !! key'.
Proof.
  intros Hne. unfold MemoryCache.get.
  destruct (cache !! key) as [entry|]; [| done].
  destruct (isCacheValid now entry); [done |]. by apply lookup_delete_ne.
Qed.

(** What a read does to the number of entries. *)
Lemma size_get now key cache :
  MemoryCache.size (snd (MemoryCache.get now key cache)) =
    match cache !! key with
    | Some entry =>
      if isCacheValid now entry then MemoryCache.size cache
      else pred (MemoryCache.size cache)
    | None => MemoryCache.size cache
    end.
Proof.
  unfold MemoryCache.get, MemoryCache.size.
  destruct (cache !! key) as [entry|] eqn:Hk; [| done].
  destruct (isCacheValid now entry); [done |].
  simpl. by rewrite map_size_delete, Hk.
Qed.

(** A read after a write: the data, as long as the clock is below the sum
    [now + ttl] the write stored, a sum of Numbers. *)
Lemma get_set now now' key v ttl cache :
  fst (MemoryCache.get now' key (MemoryCache.set now key v (Some ttl) cache))
  = if Number.ltb (Number.ofZ now') (Number.add (Number.ofZ now) ttl)
    then Some v else None.
Proof.
  unfold MemoryCache.get, MemoryCache.set, isCacheValid.
  rewrite lookup_insert_eq. unfold createCacheEntry. cbn [expiresAt data default].
  by destruct (Number.ltb _ _).
Qed.

(** With a clock and a ttl that are whole numbers of milliseconds, the sum
    is exact: the data is read for [ms] milliseconds. *)
Lemma get_set_ofZ now now' key v (ms : Z) cache :
  Number.isSafeInteger now = true ->
  Number.isSafeInteger ms = true ->
  Number.isSafeInteger (now + ms) = true ->
  fst (MemoryCache.get now' key
         (MemoryCache.set now key v (Some (Number.ofZ ms)) cache))
  = if (now' <? now + ms)%Z then Some v else None.
Proof.
  unfold Number.isSafeInteger. intros Hnow%Z.ltb_lt Hms%Z.ltb_lt Hsum%Z.ltb_lt.
  rewrite get_set, NumberFacts.add_ofZ by lia.
  rewrite NumberFacts.ltb_ofZ by lia. done.
Qed.

(** C4, amended.  With a clock that reads a safe integer of milliseconds:
    a [set(k, v, ttl)] followed by a [get(k)] at the same reading of the
    clock returns nothing when [ttl > 0] does not hold, whatever Number
    [ttl] is; and when [ttl] is a whole number [ms] of milliseconds (with
    [now + ms] a safe integer), it returns [v] when [ms > 0], and after
    [elapsed] milliseconds it returns [v] as long as [elapsed < ms]. *)
Theorem MemoryCache_set_get now key v cache :
  Number.isSafeInteger now = true ->
  (forall ttl,
     Number.ltb (Number.ofZ 0) ttl = false ->
     fst (MemoryCache.get now key (MemoryCache.set now key v (Some ttl) cache))
     = None) /\
  (forall ms : Z,
     Number.isSafeInteger ms = true ->
     Number.isSafeInteger (now + ms) = true ->
     fst (MemoryCache.get now key
            (MemoryCache.set now key v (Some (Number.ofZ ms)) cache))
     = (if (0 <? ms)%Z then Some v else None) /\
     forall elapsed : nat,
       fst (MemoryCache.get (now + Z.of_nat elapsed) key
              (MemoryCache.set now key v (Some (Number.ofZ ms)) cache))
       = if (Z.of_nat elapsed <? ms)%Z then Some v else None).
Proof.
  intros Hnow. split.
  - intros ttl Httl. rewrite get_set.
    rewrite NumberFacts.ltb_add_not_positive; [done | | done].
    unfold Number.isSafeInteger in Hnow. apply Z.ltb_lt in Hnow. lia.
  - intros ms Hms Hsum. split; [| intros elapsed]; rewrite get_set_ofZ by done.
    + destruct (Z.ltb_spec now (now + ms)), (Z.ltb_spec 0 ms); (done || lia).
    + destruct (Z.ltb_spec (now + Z.of_nat elapsed) (now + ms)),
        (Z.ltb_spec (Z.of_nat elapsed) ms); (done || lia).
Qed.

(** No call but [clear] touches a key it does not name: nothing sweeps the
    expired entries of other keys. *)
Lemma after_other now (c : MemoryCache.call) key' cache :
  c <> MemoryCache.CallClear -> MemoryCache.calledKey c <> Some key' ->
  MemoryCache.after now c cache !! key' = cache !! key'.
Proof.
  intros Hclear Hkey. destruct c as [key|key v ttl|key| |]; simpl in *.
  - apply get_other. congruence.
  - unfold MemoryCache.set. apply lookup_insert_ne. congruence.
  - unfold MemoryCache.delete. apply lookup_delete_ne. congruence.
  - done.
  - done.
Qed.

(** The number of entries decreases only by a read of an expired key, a
    [delete] or a [clear]. *)
Lemma size_decreases now (c : MemoryCache.call) cache :
  (MemoryCache.size (MemoryCache.after now c cache) < MemoryCache.size cache)%nat ->
  (exists key entry, c = MemoryCache.CallGet key /\ cache !! key = Some entry /\
                     isCacheValid now entry = false) \/
  (exists key, c = MemoryCache.CallDelete key /\ is_Some (cache !! key)) \/
  c = MemoryCache.CallClear.
Proof.
  destruct c as [key|key v ttl|key| |]; simpl.
  - rewrite size_get. unfold MemoryCache.size.
    destruct (cache !! key) as [entry|] eqn:Hk; [| simpl; lia].
    destruct (isCacheValid now entry) eqn:Hvalid; [simpl; lia |].
    intros _. left. by exists key, entry.
  - unfold MemoryCache.set, MemoryCache.size. rewrite map_size_insert.
    destruct (cache !! key); simpl; lia.
  - unfold MemoryCache.delete, MemoryCache.size. rewrite map_size_delete.
    destruct (cache !! key) eqn:Hk; [| simpl; lia].
    intros _. right. left. exists key. by rewrite Hk.
  - intros _. by right; right.
  - simpl; lia.
Qed.

(** C5.  At a time at or past the expiry of the entry of [key] (a time at
    which [Date.now() < expiresAt] does not hold), [get(key)] returns
    nothing and removes that entry, and only that one; [size()] counts the
    entry until then, expired or not (a [set] of a fresh key adds one
    whatever the ttl), and a call makes it smaller only when it is such a
    read, a [delete] or a [clear]. *)
Theorem MemoryCache_expiry now key (entry : CacheEntry T) cache :
  cache !! key = Some entry ->
  isCacheValid now entry = false ->
  MemoryCache.get now key cache = (None, base.delete key cache) /\
  MemoryCache.size (snd (MemoryCache.get now key cache))
    = pred (MemoryCache.size cache) /\
  (MemoryCache.size cache > 0)%nat /\
  (forall (c : MemoryCache.call) key',
     c <> MemoryCache.CallClear -> MemoryCache.calledKey c <> Some key' ->
     MemoryCache.after now c cache !! key' = cache !! key') /\
  (forall key' v (ttlMs : option Number.t),
     cache !! key' = None ->
     MemoryCache.size (MemoryCache.set now key' v ttlMs cache)
       = S (MemoryCache.size cache)) /\
  (forall now' (c : MemoryCache.call),
     (MemoryCache.size (MemoryCache.after now' c cache) < MemoryCache.size cache)%nat ->
     (exists k e, c = MemoryCache.CallGet k /\ cache !! k = Some e /\
                  isCacheValid now' e = false) \/
     (exists k, c = MemoryCache.CallDelete k /\ is_Some (cache !! k)) \/
     c = MemoryCache.CallClear).
Proof.
  intros Hk Hexp. repeat match goal with |- _ /\ _ => split end.
  - by apply get_expired with entry.
  - by rewrite size_get, Hk, Hexp.
  - unfold MemoryCache.size. destruct (decide (size cache = 0%nat)) as [H0|]; [| lia].
    apply map_size_empty_inv in H0. subst. by rewrite lookup_empty in Hk.
  - intros c key'. apply after_other.
  - intros key' v ttlMs Hnone. unfold MemoryCache.set, MemoryCache.size.
    by rewrite map_size_insert_None.
  - intros now' c. apply size_decreases.
Qed.

End MemoryCacheProperties.

(** A ttl of one second at a clock of 2024: read at once, and one second
    later. *)
Lemma MemoryCache_set_get_witness :
  fst (MemoryCache.get 1730000000000 (str "k")
         (MemoryCache.set 1730000000000 (str "k") 7%nat
            (Some (Number.ofZ 1000)) ∅)) = Some 7%nat /\
  fst (MemoryCache.get (1730000000000 + Z.of_nat 1000) (str "k")
         (MemoryCache.set 1730000000000 (str "k") 7%nat
            (Some (Number.ofZ 1000)) ∅)) = None.
Proof.
  pose proof (proj2 (MemoryCache_set_get 1730000000000 (str "k") 7%nat ∅
                       eq_refl) 1000%Z eq_refl eq_refl) as [Hnow Hlater].
  split; [exact Hnow | exact (Hlater 1000%nat)].
Defined.

(** C4, as stated, fails for a ttl that the sum [now + ttl] absorbs: at the
    clock 1730000000000 the Numbers are [2^-12] apart, so that with the ttl
    [2^-14], or with the ttl [0.0001] (the Number
    [7378697629483821 * 2^-66]), both above 0, the entry expires at [now]
    and the read that follows at once finds nothing. *)
Lemma MemoryCache_set_get_absorbed :
  Number.ltb (Number.ofZ 0) (Number.ofDyadic 1 (-14)) = true /\
  fst (MemoryCache.get 1730000000000 (str "k")
         (MemoryCache.set 1730000000000 (str "k") 7%nat
            (Some (Number.ofDyadic 1 (-14))) ∅)) = None /\
  Number.ltb (Number.ofZ 0) (Number.ofDyadic 7378697629483821 (-66)) = true /\
  fst (MemoryCache.get 1730000000000 (str "k")
         (MemoryCache.set 1730000000000 (str "k") 7%nat
            (Some (Number.ofDyadic 7378697629483821 (-66))) ∅)) = None /\
  Number.add (Number.ofZ 1730000000000) (Number.ofDyadic 7378697629483821 (-66))
  = Number.ofZ 1730000000000.
Proof. by vm_compute. Qed.

(** The cache holding ["k"] with a ttl of 0, read at the time of the write. *)
Lemma MemoryCache_expiry_witness :
  let cache : gmap jsstring (CacheEntry nat) :=
    MemoryCache.set 1000 (str "k") 7%nat (Some (Number.ofZ 0)) ∅ in
  MemoryCache.get 1000 (str "k") cache = (None, base.delete (str "k") cache).
Proof.
  intros cache.
  refine (proj1 (MemoryCache_expiry 1000 (str "k")
                   (createCacheEntry 1000 7%nat (Some (Number.ofZ 0))) cache _ _)).
  - unfold cache, MemoryCache.set. apply lookup_insert_eq.
  - by vm_compute.
Defined.
(** ** [btoa] and [atob] *)

Module Base64Facts.
Import Base64.

Local Ltac Zify.zify_post_hook ::= Z.to_euclidean_division_equations.

(** Case analysis on the comparisons of a goal over [N]. *)
Ltac N_cases :=
  repeat match goal with
  | |- context [N.ltb ?a ?b] => destruct (N.ltb_spec a b)
  | |- context [N.leb ?a ?b] => destruct (N.leb_spec a b)
  | |- context [N.eqb ?a ?b] => destruct (N.eqb_spec a b)
  end; simpl.

Example btoa_Man : btoa (str "Man") = Ok (str "TWFu").
Proof. reflexivity. Qed.

Example btoa_Ma : btoa (str "Ma") = Ok (str "TWE=").
Proof. reflexivity. Qed.

Example btoa_M : btoa (str "M") = Ok (str "TQ==").
Proof. reflexivity. Qed.

Example atob_spaced : atob (str " TW E= ") = Ok (str "Ma").
Proof. reflexivity. Qed.

Example atob_length_1 : atob (str "TWFuT") = Throw InvalidCharacterError.
Proof. reflexivity. Qed.

Lemma b64val_b64char i : i < 64 -> b64val (b64char i) = Some i.
Proof.
  intros Hi. unfold b64char, b64val. N_cases; try lia; f_equal; lia.
Qed.

Lemma b64char_range i :
  let c := b64char i in
  43 <= c <= 122 /\ c <> 58 /\ c <> 61.
Proof. unfold b64char. N_cases; lia. Qed.

Lemma b64char_not_whitespace i : isAsciiWhitespace (b64char i) = false.
Proof.
  pose proof (b64char_range i) as Hr. simpl in Hr.
  unfold isAsciiWhitespace. N_cases; (done || lia).
Qed.

(** Lists by groups of three. *)
Lemma list_ind3 {A} (P : list A -> Prop) :
  P [] -> (forall a, P [a]) -> (forall a b, P [a; b]) ->
  (forall a b c l, P l -> P (a :: b :: c :: l)) ->
  forall l, P l.
Proof.
  intros H0 H1 H2 H3.
  fix IH 1. intros [|a [|b [|c l]]];
    [apply H0 | apply H1 | apply H2 | apply H3, IH].
Qed.

Lemma encodeGroups_split s :
  encodeGroups s = List.map b64char (sextets s) ++ padding s.
Proof.
  induction s as [|a|a b|a b c l IH] using list_ind3; try reflexivity.
  change (encodeGroups (a :: b :: c :: l)) with
    (b64char (a / 4) :: b64char ((a mod 4) * 16 + b / 16)
     :: b64char ((b mod 16) * 4 + c / 64) :: b64char (c mod 64)
     :: encodeGroups l).
  rewrite IH. reflexivity.
Qed.

Lemma sextets_bound s :
  Forall (fun c => c <= 255) s -> Forall (fun i => i < 64) (sextets s).
Proof.
  induction s as [|a|a b|a b c l IH] using list_ind3; intros Hs.
  - constructor.
  - inversion_clear Hs. repeat constructor; lia.
  - inversion_clear Hs as [|? ? ? Hs']. inversion_clear Hs'.
    repeat constructor; lia.
  - inversion_clear Hs as [|? ? ? Hs1]. inversion_clear Hs1 as [|? ? ? Hs2].
    inversion_clear Hs2.
    change (sextets (a :: b :: c :: l)) with
      (a / 4 :: (a mod 4) * 16 + b / 16 :: (b mod 16) * 4 + c / 64
       :: c mod 64 :: sextets l).
    repeat (constructor; [lia |]). by apply IH.
Qed.

Lemma decodeGroups_sextets s :
  Forall (fun c => c <= 255) s -> decodeGroups (sextets s) = s.
Proof.
  induction s as [|a|a b|a b c l IH] using list_ind3; intros Hs.
  - reflexivity.
  - inversion_clear Hs. simpl. f_equal. lia.
  - inversion_clear Hs as [|? ? ? Hs']. inversion_clear Hs'.
    simpl. f_equal; [lia |]. f_equal. lia.
  - inversion_clear Hs as [|? ? ? Hs1]. inversion_clear Hs1 as [|? ? ? Hs2].
    inversion_clear Hs2.
    change (sextets (a :: b :: c :: l)) with
      (a / 4 :: (a mod 4) * 16 + b / 16 :: (b mod 16) * 4 + c / 64
       :: c mod 64 :: sextets l).
    change (decodeGroups (?x :: ?y :: ?z :: ?w :: ?r)) with
      ((x * 4 + y / 16) :: ((y mod 16) * 16 + z / 4) :: ((z mod 4) * 64 + w)
       :: decodeGroups r).
    rewrite IH by done. f_equal; [lia |]. f_equal; [lia |]. f_equal. lia.
Qed.

Lemma sextets_length s :
  (length (sextets s) mod 4 <> 1)%nat /\
  ((length (sextets s) + length (padding s)) mod 4 = 0)%nat.
Proof.
  induction s as [|a|a b|a b c l IH] using list_ind3; try (by compute).
  change (sextets (a :: b :: c :: l)) with
    (a / 4 :: (a mod 4) * 16 + b / 16 :: (b mod 16) * 4 + c / 64
     :: c mod 64 :: sextets l).
  change (padding (a :: b :: c :: l)) with (padding l).
  cbn [length].
  replace (S (S (S (S (length (sextets l))))))
    with (length (sextets l) + 1 * 4)%nat by lia.
  rewrite <- Nat.add_assoc, (Nat.add_comm (1 * 4)), Nat.add_assoc.
  by rewrite !Nat.Div0.mod_add.
Qed.

Lemma padding_cases s : padding s = [] \/ padding s = [61] \/ padding s = [61; 61].
Proof.
  induction s as [|a|a b|a b c l IH] using list_ind3; simpl; auto.
Qed.

Lemma stripPadding_app chars pad :
  Forall (fun c => c <> 61) chars ->
  pad = [] \/ pad = [61] \/ pad = [61; 61] ->
  stripPadding (chars ++ pad) = chars.
Proof.
  intros Hchars Hpad. unfold stripPadding.
  assert (Hrev : Forall (fun c => c <> 61) (rev chars)) by by apply Forall_rev.
  destruct Hpad as [-> | [-> | ->]]; rewrite rev_app_distr; simpl.
  - rewrite app_nil_r.
    destruct (rev chars) as [|a [|b r]] eqn:Hr; [done | |];
      inversion_clear Hrev; by destruct (N.eqb_spec a 61).
  - destruct (rev chars) as [|b r] eqn:Hr.
    + apply (f_equal (@rev N)) in Hr. by rewrite rev_involutive in Hr.
    + inversion_clear Hrev. destruct (N.eqb_spec b 61); [done |].
      by rewrite <- (rev_involutive chars), Hr.
  - apply rev_involutive.
Qed.

Lemma mapM_b64val l :
  Forall (fun i => i < 64) l -> mapM b64val (List.map b64char l) = Some l.
Proof.
  induction 1 as [|i l Hi _ IH]; [done |].
  cbn. rewrite b64val_b64char by done. cbn. by rewrite IH.
Qed.

Lemma isLatin1_Forall s : isLatin1 s = true <-> Forall (fun c => c <= 255) s.
Proof.
  unfold isLatin1. rewrite forallb_forall, List.Forall_forall.
  by setoid_rewrite N.leb_le.
Qed.

(** [atob] undoes [btoa]. *)
Lemma atob_encodeGroups s :
  isLatin1 s = true -> atob (encodeGroups s) = Ok s.
Proof.
  intros Hs.
  assert (Hs' : Forall (fun c => c <= 255) s) by by apply isLatin1_Forall.
  unfold atob.
  assert (Hfilter : List.filter (fun c => negb (isAsciiWhitespace c)) (encodeGroups s)
                    = encodeGroups s).
  { apply forallb_filter_id. apply forallb_forall. intros c Hc.
    rewrite encodeGroups_split in Hc. apply in_app_or in Hc as [Hc | Hc].
    - apply in_map_iff in Hc as (i & <- & _). by rewrite b64char_not_whitespace.
    - destruct (padding_cases s) as [Hp | [Hp | Hp]]; rewrite Hp in Hc;
        simpl in Hc; intuition (by subst). }
  rewrite Hfilter. rewrite encodeGroups_split.
  destruct (sextets_length s) as [Hlen1 Hlen0].
  rewrite length_app, length_map, Hlen0, Nat.eqb_refl.
  rewrite stripPadding_app.
  - rewrite length_map. destruct (Nat.eqb_spec (length (sextets s) mod 4) 1); [done |].
    rewrite mapM_b64val by by apply sextets_bound.
    by rewrite decodeGroups_sextets.
  - apply List.Forall_forall. intros c Hc. apply in_map_iff in Hc as (i & <- & _).
    apply b64char_range.
  - apply padding_cases.
Qed.

Lemma btoa_Ok s e : btoa s = Ok e <-> isLatin1 s = true /\ e = encodeGroups s.
Proof.
  unfold btoa. destruct (isLatin1 s); split; try done.
  - intros [= <-]. done.
  - intros [_ ->]. done.
  - intros [? _]. done.
Qed.

Lemma atob_btoa s e : btoa s = Ok e -> atob e = Ok s.
Proof. intros [Hs ->]%btoa_Ok. by apply atob_encodeGroups. Qed.

Lemma btoa_inj s1 s2 e : btoa s1 = Ok e -> btoa s2 = Ok e -> s1 = s2.
Proof.
  intros H1%atob_btoa H2%atob_btoa. congruence.
Qed.

(** The output of [btoa] is made of the alphabet and of [=]: it has no
    colon. *)
Lemma btoa_no_colon s e : btoa s = Ok e -> Forall (fun c => c <> 58) e.
Proof.
  intros [_ ->]%btoa_Ok. apply List.Forall_forall. intros c.
  rewrite encodeGroups_split. intros [Hc | Hc]%in_app_or.
  - apply in_map_iff in Hc as (i & <- & _). apply b64char_range.
  - destruct (padding_cases s) as [Hp | [Hp | Hp]]; rewrite Hp in Hc;
      simpl in Hc; intuition (subst; lia).
Qed.

Lemma encodeGroups_nonempty s : s <> [] -> encodeGroups s <> [].
Proof. by destruct s as [|a [|b [|c l]]]. Qed.

End Base64Facts.

(** ** The storage adapters *)

#[export] Instance MockStorageAdapter_WorkingAdapter :
  WorkingAdapter MockStorageAdapter.t.
Proof.
  split.
  - done.
  - intros key value s Hv. simpl. unfold MockStorageAdapter.getItem. simpl.
    rewrite lookup_insert_eq. by destruct value.
Qed.

Section LocalStorageAdapterProperties.

Context {H : Type} `{!StorageAdapter H}.
Implicit Types (a : LocalStorageAdapter.t H) (key value : jsstring).

(** The prefixed adapters swallow every exception of the host. *)
Lemma LocalStorageAdapter_silent a key value :
  throws (fst (LocalStorageAdapter.getItem key a)) = false /\
  throws (fst (LocalStorageAdapter.setItem key value a)) = false /\
  throws (fst (LocalStorageAdapter.removeItem key a)) = false.
Proof.
  unfold LocalStorageAdapter.getItem, LocalStorageAdapter.setItem,
    LocalStorageAdapter.removeItem.
  repeat split.
  - by destruct (getItem _ _) as [[v|e] h].
  - by destruct (setItem _ _ _) as [[v|e] h].
  - by destruct (removeItem _ _) as [[v|e] h].
Qed.

Lemma LocalStorageAdapter_getItem_failure a key e h :
  getItem (LocalStorageAdapter.getKey a key) (LocalStorageAdapter.localStorage a)
    = (Throw e, h) ->
  fst (LocalStorageAdapter.getItem key a) = Ok None.
Proof. intros Hg. unfold LocalStorageAdapter.getItem. by rewrite Hg. Qed.

End LocalStorageAdapterProperties.

Section MultiTierStorageAdapterProperties.

Context {S : Type} `{!StorageAdapter S}.
Implicit Types (adapters : list S) (key value : jsstring).

(** The multi-tier adapter swallows the exceptions of its tiers. *)
Lemma MultiTierStorageAdapter_silent adapters key value :
  throws (fst (MultiTierStorageAdapter.getItem key adapters)) = false /\
  throws (fst (MultiTierStorageAdapter.setItem key value adapters)) = false /\
  throws (fst (MultiTierStorageAdapter.removeItem key adapters)) = false.
Proof.
  repeat split.
  induction adapters as [|adapter rest IH]; [done |]. simpl.
  destruct (getItem key adapter) as [[[v|]|e] adapter'];
    [done | |]; by destruct (MultiTierStorageAdapter.getItem key rest).
Qed.

End MultiTierStorageAdapterProperties.

Section EncryptedStorageAdapterProperties.

Import Base64 Base64Facts.

Local Abbreviation xorLoop := EncryptedStorageAdapter.xorLoop.
Local Abbreviation keyCodeAt := EncryptedStorageAdapter.keyCodeAt.
Local Abbreviation encrypt := EncryptedStorageAdapter.encrypt.
Local Abbreviation decrypt := EncryptedStorageAdapter.decrypt.
Local Abbreviation baseAdapter := EncryptedStorageAdapter.baseAdapter.
Local Abbreviation secretKey := EncryptedStorageAdapter.secretKey.

Context {B : Type} `{!StorageAdapter B}.
Implicit Types (a : EncryptedStorageAdapter.t B) (key value text : jsstring).

Lemma xorLoop_involutive secret i text :
  xorLoop secret i (xorLoop secret i text) = text.
Proof.
  revert i. induction text as [|c rest IH]; intros i; simpl; [done |].
  rewrite IH. f_equal.
  by rewrite N.lxor_assoc, N.lxor_nilpotent, N.lxor_0_r.
Qed.

Lemma xorLoop_nonempty secret i text : text <> [] -> xorLoop secret i text <> [].
Proof. by destruct text. Qed.

Lemma lxor_le_255 x y : x <= 255 -> y <= 255 -> N.lxor x y <= 255.
Proof.
  intros Hx Hy.
  assert (Hlog : forall z, z <= 255 -> N.log2 z < 8).
  { intros z Hz. destruct (N.eq_dec z 0) as [-> | Hz0]; [done |].
    apply N.log2_lt_pow2; [lia |]. change (2 ^ 8) with 256. lia. }
  destruct (N.eq_dec (N.lxor x y) 0) as [-> | Hne]; [done |].
  enough (N.lxor x y < 2 ^ 8) by (change (2 ^ 8) with 256 in *; lia).
  apply N.log2_lt_pow2; [lia |].
  pose proof (N.log2_lxor x y). pose proof (Hlog x Hx). pose proof (Hlog y Hy).
  lia.
Qed.

Lemma keyCodeAt_le_255 secret i :
  isLatin1 secret = true -> keyCodeAt secret i <= 255.
Proof.
  intros Hs%isLatin1_Forall. unfold EncryptedStorageAdapter.keyCodeAt.
  destruct secret as [|k secret']; [done |].
  set (secret := k :: secret') in *.
  destruct (nth_in_or_default (i mod length secret) secret 0) as [Hin | ->];
    [| done].
  by apply (proj1 (List.Forall_forall _ _) Hs).
Qed.

(** Over Latin-1 text and a Latin-1 key the XOR stays in Latin-1. *)
Lemma xorLoop_isLatin1 secret i text :
  isLatin1 secret = true -> isLatin1 text = true ->
  isLatin1 (xorLoop secret i text) = true.
Proof.
  intros Hs Ht. revert i.
  induction text as [|c rest IH]; intros i; simpl; [done |].
  simpl in Ht. apply andb_true_iff in Ht as [Hc Hrest].
  apply andb_true_iff. split; [| by apply IH].
  apply N.leb_le, lxor_le_255; [by apply N.leb_le | by apply keyCodeAt_le_255].
Qed.

(** [decrypt] never raises: its own [catch] answers [''] . *)
Lemma decrypt_Ok secret text : exists r, decrypt secret text = Ok r.
Proof. unfold EncryptedStorageAdapter.decrypt. destruct (atob text); eauto. Qed.

Lemma decrypt_encrypt secret text e :
  encrypt secret text = Ok e -> decrypt secret e = Ok text.
Proof.
  unfold EncryptedStorageAdapter.encrypt, EncryptedStorageAdapter.decrypt.
  intros He%atob_btoa. rewrite He.
  by rewrite xorLoop_involutive.
Qed.

(** An exception of the base adapter passes through [getItem],
    [setItem] and [removeItem]. *)
Lemma EncryptedStorageAdapter_propagates a key value err b e :
  (getItem key (baseAdapter a) = (Throw err, b) ->
   fst (EncryptedStorageAdapter.getItem key a) = Throw err) /\
  (encrypt (secretKey a) value = Ok e ->
   setItem key e (baseAdapter a) = (Throw err, b) ->
   fst (EncryptedStorageAdapter.setItem key value a) = Throw err) /\
  (removeItem key (baseAdapter a) = (Throw err, b) ->
   fst (EncryptedStorageAdapter.removeItem key a) = Throw err).
Proof.
  unfold EncryptedStorageAdapter.getItem, EncryptedStorageAdapter.setItem,
    EncryptedStorageAdapter.removeItem.
  repeat split.
  - by intros ->.
  - by intros -> ->.
  - by intros ->.
Qed.

(** C7, amended.  Over a working base adapter, [setItem(k, v)] followed by
    [getItem(k)] returns [v] for every key [k] and every non-empty [v] whose
    XOR with the repeating secret key stays within U+00FF. *)
Theorem EncryptedStorageAdapter_roundtrip `{!WorkingAdapter B} a key value :
  value <> [] ->
  isLatin1 (xorLoop (secretKey a) 0 value) = true ->
  fst (EncryptedStorageAdapter.setItem key value a) = Ok () /\
  fst (EncryptedStorageAdapter.getItem key
         (snd (EncryptedStorageAdapter.setItem key value a))) = Ok (Some value).
Proof.
  intros Hne Hlatin.
  unfold EncryptedStorageAdapter.setItem.
  assert (Henc : encrypt (secretKey a) value
                 = Ok (encodeGroups (xorLoop (secretKey a) 0 value))).
  { unfold EncryptedStorageAdapter.encrypt, btoa. by rewrite Hlatin. }
  rewrite Henc.
  set (e := encodeGroups (xorLoop (secretKey a) 0 value)) in *.
  assert (He : e <> []) by by apply encodeGroups_nonempty, xorLoop_nonempty.
  pose proof (setItem_ok key e (baseAdapter a)) as Hset.
  pose proof (getItem_setItem key e (baseAdapter a) He) as Hget.
  destruct (setItem key e (baseAdapter a)) as [r b]. simpl in Hset, Hget.
  split; [done |]. simpl.
  unfold EncryptedStorageAdapter.getItem. simpl.
  destruct (getItem key b) as [r' b']. simpl in Hget. subst r'.
  destruct e as [|c s] eqn:Heq; [done |].
  by rewrite (decrypt_encrypt _ _ _ Henc).
Qed.

End EncryptedStorageAdapterProperties.

(** [setItem("k", "secret")] then [getItem("k")] gives ["secret"]. *)
Lemma EncryptedStorageAdapter_roundtrip_secret :
  fst (EncryptedStorageAdapter.getItem (str "k")
         (snd (EncryptedStorageAdapter.setItem (str "k") (str "secret") encryptedMock)))
  = Ok (Some (str "secret")).
Proof.
  refine (proj2 (EncryptedStorageAdapter_roundtrip encryptedMock (str "k")
                   (str "secret") _ _)).
  - discriminate.
  - reflexivity.
Defined.

(** C7, as stated, fails on the empty string: it is stored as [''], which
    [getItem] reads as no value. *)
Lemma EncryptedStorageAdapter_roundtrip_empty :
  fst (EncryptedStorageAdapter.setItem (str "k") [] encryptedMock) = Ok () /\
  fst (EncryptedStorageAdapter.getItem (str "k")
         (snd (EncryptedStorageAdapter.setItem (str "k") [] encryptedMock)))
  = Ok None.
Proof. split; reflexivity. Qed.

(** C8.  On the stored text ["!!!"], which [atob] rejects, [getItem] returns
    the empty string, not [null]: the [catch] of [decrypt] answers [''] and
    leaves nothing for the [catch] of [getItem].  On ["QQ"], which the
    encoder never writes (it pads to ["QQ=="]) and [atob] accepts, [getItem]
    returns the text ["*"]. *)
Theorem EncryptedStorageAdapter_getItem_malformed :
  Base64.atob (str "!!!") = Throw InvalidCharacterError /\
  fst (EncryptedStorageAdapter.getItem (str "k") encryptedMockMalformed)
    = Ok (Some []) /\
  fst (EncryptedStorageAdapter.getItem (str "k") encryptedMockUnpadded)
    = Ok (Some (str "*")).
Proof. repeat split; reflexivity. Qed.

(** C9.  [EncryptedStorageAdapter.setItem] raises on a value [btoa] rejects
    (here the euro sign, U+20AC), and over a disabled storage its three
    calls raise what the storage raises, where [LocalStorageAdapter] answers
    [null] and completes. *)
Theorem EncryptedStorageAdapter_not_silent :
  fst (EncryptedStorageAdapter.setItem (str "k") [8364] encryptedMock)
    = Throw InvalidCharacterError /\
  fst (EncryptedStorageAdapter.getItem (str "k") encryptedDisabled)
    = Throw SecurityError /\
  fst (EncryptedStorageAdapter.setItem (str "k") (str "v") encryptedDisabled)
    = Throw SecurityError /\
  fst (EncryptedStorageAdapter.removeItem (str "k") encryptedDisabled)
    = Throw SecurityError /\
  fst (LocalStorageAdapter.getItem (str "k") localDisabled) = Ok None /\
  fst (LocalStorageAdapter.setItem (str "k") (str "v") localDisabled) = Ok () /\
  fst (LocalStorageAdapter.removeItem (str "k") localDisabled) = Ok ().
Proof. repeat split; reflexivity. Qed.

(** ** [JSON.stringify] on config objects *)

Module JSONFacts.
Import JSON.

Local Ltac Zify.zify_post_hook ::= Z.to_euclidean_division_equations.

(** [{ feature: 'beta' }] gives [{"feature":"beta"}]. *)
Example stringify_betaFeature :
  stringify betaFeature
  = 123 :: 34 :: str "feature" ++ [34; 58; 34] ++ str "beta" ++ [34; 125].
Proof. reflexivity. Qed.

(** A quote, a line feed and the lone surrogate U+D83D are escaped; the
    pair U+D83D U+DE00 is copied. *)
Example quoteJSONString_escapes :
  quoteJSONString [34; 10; 55357; 97; 55357; 56832]
  = 34 :: [92; 34] ++ [92; 110] ++ 92 :: str "ud83d" ++ [97; 55357; 56832; 34].
Proof. reflexivity. Qed.

Lemma hexVal_hexDigit d : d < 16 -> hexVal (hexDigit d) = Some d.
Proof.
  intros Hd. unfold hexVal, hexDigit. Base64Facts.N_cases; try lia; f_equal; lia.
Qed.

Lemma surrogate_bounds c :
  (c <? 32) || isLeadingSurrogate c || isTrailingSurrogate c = true ->
  c < 65536.
Proof.
  unfold isLeadingSurrogate, isTrailingSurrogate.
  Base64Facts.N_cases; (done || lia).
Qed.

Lemma surrogate_plain c :
  isLeadingSurrogate c || isTrailingSurrogate c = true ->
  (c =? 34) = false /\ (c =? 92) = false.
Proof.
  unfold isLeadingSurrogate, isTrailingSurrogate.
  Base64Facts.N_cases; (done || lia).
Qed.

Lemma unquoteBody_plain c X :
  (c =? 34) = false -> (c =? 92) = false ->
  unquoteBody (c :: X) =
    match unquoteBody X with Some (t, r) => Some (c :: t, r) | None => None end.
Proof. intros H34 H92. simpl. by rewrite H34, H92. Qed.

Lemma unquoteBody_unicodeEscape c X t r :
  c < 65536 -> unquoteBody X = Some (t, r) ->
  unquoteBody (unicodeEscape c ++ X) = Some (c :: t, r).
Proof.
  intros Hc HX. unfold unicodeEscape.
  change (unquoteBody ([92; 117; ?h1; ?h2; ?h3; ?h4] ++ X)) with
    (match hexVal h1, hexVal h2, hexVal h3, hexVal h4, unquoteBody X with
     | Some a, Some b, Some c', Some d, Some (t, r) =>
       Some ((a * 4096 + b * 256 + c' * 16 + d) :: t, r)
     | _, _, _, _, _ => None
     end).
  rewrite !hexVal_hexDigit by lia. rewrite HX. do 3 f_equal. lia.
Qed.

Lemma unquoteBody_quoteUnit c X t r :
  unquoteBody X = Some (t, r) ->
  unquoteBody (quoteUnit c ++ X) = Some (c :: t, r).
Proof.
  intros HX. unfold quoteUnit.
  destruct (N.eqb_spec c 8) as [-> | _]; [simpl; by rewrite HX |].
  destruct (N.eqb_spec c 9) as [-> | _]; [simpl; by rewrite HX |].
  destruct (N.eqb_spec c 10) as [-> | _]; [simpl; by rewrite HX |].
  destruct (N.eqb_spec c 12) as [-> | _]; [simpl; by rewrite HX |].
  destruct (N.eqb_spec c 13) as [-> | _]; [simpl; by rewrite HX |].
  destruct (N.eqb_spec c 34) as [-> | H34]; [simpl; by rewrite HX |].
  destruct (N.eqb_spec c 92) as [-> | H92]; [simpl; by rewrite HX |].
  destruct (_ || _ || _) eqn:Hesc.
  - apply unquoteBody_unicodeEscape; [by apply surrogate_bounds | done].
  - change ([c] ++ X) with (c :: X).
    rewrite unquoteBody_plain by by apply N.eqb_neq. by rewrite HX.
Qed.

(** Strings by the steps of [quoteBody]. *)
Lemma quoteBody_ind (P : jsstring -> Prop) :
  P [] ->
  (forall c d rest,
     isLeadingSurrogate c && isTrailingSurrogate d = true ->
     P rest -> P (c :: d :: rest)) ->
  (forall c rest,
     quoteBody (c :: rest) = quoteUnit c ++ quoteBody rest ->
     P rest -> P (c :: rest)) ->
  forall s, P s.
Proof.
  intros H0 Hpair Hunit. fix IH 1. intros [|c l]; [apply H0 |].
  pose proof (IH l) as IHl. destruct l as [|d rest].
  - apply Hunit; [| done]. simpl. by rewrite app_nil_r.
  - destruct (isLeadingSurrogate c && isTrailingSurrogate d) eqn:Hp.
    + apply Hpair; [done | apply IH].
    + apply Hunit; [| done].
      change (quoteBody (c :: d :: rest)) with
        (if isLeadingSurrogate c && isTrailingSurrogate d
         then c :: d :: quoteBody rest
         else quoteUnit c ++ quoteBody (d :: rest)).
      by rewrite Hp.
Qed.

(** Reading what [quoteBody] wrote gives the string back, and what follows
    the closing quote. *)
Lemma unquoteBody_quoteBody s r :
  unquoteBody (quoteBody s ++ 34 :: r) = Some (s, r).
Proof.
  induction s as [|c d rest Hp IH|c rest Hq IH] using quoteBody_ind.
  - reflexivity.
  - change (quoteBody (c :: d :: rest)) with
      (if isLeadingSurrogate c && isTrailingSurrogate d
       then c :: d :: quoteBody rest
       else quoteUnit c ++ quoteBody (d :: rest)).
    rewrite Hp. apply andb_true_iff in Hp as [Hc Hd].
    destruct (surrogate_plain c) as [? ?]; [by rewrite Hc |].
    destruct (surrogate_plain d) as [? ?]; [by rewrite Hd, orb_true_r |].
    change ((c :: d :: quoteBody rest) ++ 34 :: r)
      with (c :: d :: quoteBody rest ++ 34 :: r).
    rewrite !unquoteBody_plain by done. by rewrite IH.
  - rewrite Hq, <- app_assoc. by apply unquoteBody_quoteUnit.
Qed.

Lemma SelfDelimiting_inj {A} (serialize : A -> jsstring) :
  SelfDelimiting serialize -> forall a1 a2, serialize a1 = serialize a2 -> a1 = a2.
Proof.
  intros Hsd a1 a2 Heq. apply (Hsd a1 a2 [] []). by rewrite Heq.
Qed.

Lemma quoteJSONString_delimiting : SelfDelimiting quoteJSONString.
Proof.
  intros s1 s2 r1 r2 Heq. unfold quoteJSONString in Heq.
  simpl in Heq. injection Heq as Heq.
  rewrite <- !app_assoc in Heq. simpl in Heq.
  apply (f_equal unquoteBody) in Heq.
  rewrite !unquoteBody_quoteBody in Heq. by injection Heq.
Qed.

Lemma cons_tail_eq {A} (a : A) (l1 l2 : list A) : a :: l1 = a :: l2 -> l1 = l2.
Proof. by intros [= ->]. Qed.

Lemma commaTail_inj l1 l2 r1 r2 :
  concat (List.map (fun y => 44 :: y) (List.map quoteJSONString l1)) ++ 93 :: r1
  = concat (List.map (fun y => 44 :: y) (List.map quoteJSONString l2)) ++ 93 :: r2 ->
  l1 = l2 /\ r1 = r2.
Proof.
  revert l2. induction l1 as [|x l1 IH]; intros [|y l2] Heq;
    cbn [concat List.map app] in Heq.
  - by injection Heq.
  - discriminate.
  - discriminate.
  - apply cons_tail_eq in Heq. rewrite <- !app_assoc in Heq.
    apply quoteJSONString_delimiting in Heq as [-> Heq].
    apply IH in Heq as [-> ->]. done.
Qed.

Lemma serializeArray_delimiting : SelfDelimiting serializeArray.
Proof.
  intros [|x l1] [|y l2] r1 r2 Heq; unfold serializeArray, joinComma in Heq;
    cbn [concat List.map app] in Heq; apply cons_tail_eq in Heq.
  - by injection Heq.
  - unfold quoteJSONString in Heq. discriminate.
  - unfold quoteJSONString in Heq. discriminate.
  - rewrite <- !app_assoc in Heq. cbn [app] in Heq.
    apply quoteJSONString_delimiting in Heq as [-> Heq].
    apply commaTail_inj in Heq as [-> ->]. done.
Qed.

Lemma serializeBoolean_delimiting : SelfDelimiting serializeBoolean.
Proof. intros [|] [|] r1 r2 Heq; simpl in Heq; by simplify_eq. Qed.

Lemma compatible_fmap {A} (serialize : A -> jsstring) (o1 o2 : option A) :
  SelfDelimiting serialize -> compatible (serialize <$> o1) (serialize <$> o2).
Proof.
  intros Hsd v1 v2 r1 r2 H1 H2 Heq.
  destruct o1 as [a1|], o2 as [a2|]; simplify_eq/=.
  apply Hsd in Heq as [-> ->]. done.
Qed.

Lemma joinComma_objectTail members :
  joinComma members ++ [125] = objectTail true members.
Proof.
  destruct members as [|m rest]; [done |]. simpl. rewrite <- app_assoc. f_equal.
  induction rest as [|m' rest IH]; [done |]. simpl.
  by rewrite <- app_assoc, IH.
Qed.

Lemma objectTail_member first key v T T' :
  separator first ++ quoteJSONString key ++ 58 :: v ++ T <> 125 :: T'.
Proof. by destruct first. Qed.

Lemma fmap_Some_inj {A} (serialize : A -> jsstring) (o1 o2 : option A) :
  SelfDelimiting serialize -> serialize <$> o1 = serialize <$> o2 -> o1 = o2.
Proof.
  intros Hsd Heq. destruct o1, o2; simplify_eq/=; [| done].
  f_equal. by apply (SelfDelimiting_inj serialize).
Qed.

Lemma keyName_inj k1 k2 : keyName k1 = keyName k2 -> k1 = k2.
Proof. by destruct k1, k2. Qed.

(** The values of one key, in whatever configs, are told apart by their
    serializations. *)
Lemma serializeProperty_compatible config1 config2 k :
  compatible (serializeProperty config1 k) (serializeProperty config2 k).
Proof.
  destruct k; cbn [serializeProperty]; apply compatible_fmap;
    (apply quoteJSONString_delimiting || apply serializeArray_delimiting
     || apply serializeBoolean_delimiting).
Qed.

Lemma isDefined_serializeProperty config k :
  isDefined config k = hasValue (serializeProperty config k).
Proof.
  destruct k; cbn [isDefined serializeProperty];
    by match goal with |- context [hasValue ?o] => destruct o end.
Qed.

(** What is written is the members, and the members are those of the
    defined keys. *)
Lemma partial_members obj :
  partial (properties obj)
  = List.map memberString (members (fields obj) (ownKeys obj)).
Proof.
  unfold properties. induction (ownKeys obj) as [|k keys IH]; [done |].
  cbn [List.map partial members].
  destruct (serializeProperty (fields obj) k); cbn [List.map]; by rewrite IH.
Qed.

Lemma members_filter config keys :
  members config keys = members config (List.filter (isDefined config) keys).
Proof.
  induction keys as [|k keys IH]; [done |].
  cbn [members List.filter]. rewrite isDefined_serializeProperty.
  destruct (serializeProperty config k) as [v|] eqn:Hv; cbn [hasValue members];
    by rewrite ?Hv, IH.
Qed.

Lemma members_keys config keys :
  List.map fst (members config keys) = List.filter (isDefined config) keys.
Proof.
  induction keys as [|k keys IH]; [done |].
  cbn [members List.filter]. rewrite isDefined_serializeProperty.
  destruct (serializeProperty config k); cbn [hasValue List.map fst];
    by rewrite IH.
Qed.

Lemma members_In config keys k v :
  In (k, v) (members config keys) -> serializeProperty config k = Some v.
Proof.
  induction keys as [|k' keys IH]; [done |]. cbn [members].
  destruct (serializeProperty config k') as [v'|] eqn:Hv; [| done].
  intros [[= <- <-] | Hin]; [done | by apply IH].
Qed.

(** The text of the members determines them. *)
Lemma members_inj first config1 config2 ms1 ms2 :
  (forall k v, In (k, v) ms1 -> serializeProperty config1 k = Some v) ->
  (forall k v, In (k, v) ms2 -> serializeProperty config2 k = Some v) ->
  objectTail first (List.map memberString ms1)
  = objectTail first (List.map memberString ms2) ->
  ms1 = ms2.
Proof.
  revert first ms2.
  induction ms1 as [|[k1 v1] ms1 IH]; intros first [|[k2 v2] ms2] H1 H2 Heq;
    cbn [List.map objectTail] in Heq;
    repeat match type of Heq with
           | context [memberString (?k, ?v)] =>
             change (memberString (k, v))
               with (quoteJSONString (keyName k) ++ 58 :: v) in Heq
           end.
  - done.
  - exfalso. symmetry in Heq. rewrite <- !app_assoc in Heq.
    by apply objectTail_member in Heq.
  - exfalso. rewrite <- !app_assoc in Heq. by apply objectTail_member in Heq.
  - apply app_inv_head in Heq. rewrite <- !app_assoc in Heq.
    apply quoteJSONString_delimiting in Heq as [Hk Heq].
    apply keyName_inj in Hk as <-.
    cbn [app] in Heq. apply cons_tail_eq in Heq.
    apply (serializeProperty_compatible config1 config2 k1) in Heq as [<- Heq];
      [| apply H1; by left | apply H2; by left].
    f_equal. apply (IH false); [| | done].
    + intros k v Hin. apply H1. by right.
    + intros k v Hin. apply H2. by right.
Qed.

Lemma stringify_members obj1 obj2 :
  stringify obj1 = stringify obj2 <->
  members (fields obj1) (ownKeys obj1) = members (fields obj2) (ownKeys obj2).
Proof.
  unfold stringify, serializeObject. rewrite !partial_members. split.
  - intros Heq. apply cons_tail_eq in Heq.
    rewrite !joinComma_objectTail in Heq.
    apply (members_inj true (fields obj1) (fields obj2)); [| | done].
    + intros k v. apply members_In.
    + intros k v. apply members_In.
  - by intros ->.
Qed.

(** A property that has a value is among the defined keys of an object. *)
Lemma isObject_defined obj k :
  isObject obj = true -> isDefined (fields obj) k = true -> In k (definedKeys obj).
Proof.
  unfold isObject, definedKeys. intros [_ Hown]%andb_true_iff Hdef.
  apply filter_In. split; [| done].
  rewrite forallb_forall in Hown.
  assert (Hk : In k interfaceKeys) by (destruct k; simpl; tauto).
  apply Hown in Hk. rewrite Hdef in Hk. simpl in Hk.
  apply bool_decide_eq_true in Hk. by apply list_elem_of_In.
Qed.

(** Two config objects have the same serialization exactly when their
    properties have the same values and their defined keys come in the same
    order. *)
Lemma stringify_inj obj1 obj2 :
  isObject obj1 = true -> isObject obj2 = true ->
  stringify obj1 = stringify obj2 <->
  fields obj1 = fields obj2 /\ definedKeys obj1 = definedKeys obj2.
Proof.
  intros Hobj1 Hobj2. rewrite stringify_members. split.
  - intros Hm.
    assert (Hkeys : definedKeys obj1 = definedKeys obj2).
    { unfold definedKeys. by rewrite <- !members_keys, Hm. }
    split; [| done].
    assert (Hvalues : forall k,
              serializeProperty (fields obj1) k = serializeProperty (fields obj2) k).
    { intros k. destruct (isDefined (fields obj1) k) eqn:Hd1.
      - apply (isObject_defined _ _ Hobj1) in Hd1. unfold definedKeys in Hd1.
        rewrite <- members_keys in Hd1. apply in_map_iff in Hd1 as ([k' v] & <- & Hin).
        cbn [fst]. rewrite (members_In _ _ _ _ Hin).
        rewrite Hm in Hin. by rewrite (members_In _ _ _ _ Hin).
      - destruct (isDefined (fields obj2) k) eqn:Hd2.
        + apply (isObject_defined _ _ Hobj2) in Hd2. rewrite <- Hkeys in Hd2.
          unfold definedKeys in Hd2. apply filter_In in Hd2 as [_ Hd2]. congruence.
        + rewrite isDefined_serializeProperty in Hd1, Hd2.
          by destruct (serializeProperty (fields obj1) k),
            (serializeProperty (fields obj2) k). }
    pose proof (Hvalues KeyFeature) as H1. pose proof (Hvalues KeyAnyFeature) as H2.
    pose proof (Hvalues KeyAllFeatures) as H3. pose proof (Hvalues KeyPermission) as H4.
    pose proof (Hvalues KeyAnyPermission) as H5.
    pose proof (Hvalues KeyAllPermissions) as H6.
    pose proof (Hvalues KeyRequireBoth) as H7.
    cbn [serializeProperty] in H1, H2, H3, H4, H5, H6, H7.
    apply (fmap_Some_inj _ _ _ quoteJSONString_delimiting) in H1, H4.
    apply (fmap_Some_inj _ _ _ serializeArray_delimiting) in H2, H3, H5, H6.
    apply (fmap_Some_inj _ _ _ serializeBoolean_delimiting) in H7.
    destruct (fields obj1), (fields obj2). simpl in *. by subst.
  - intros [Hf Hk]. rewrite (members_filter (fields obj1)), (members_filter (fields obj2)).
    unfold definedKeys in Hk. by rewrite Hk, Hf.
Qed.

End JSONFacts.

(** ** The cache key *)

Lemma split_last_colon (u1 u2 b1 b2 : jsstring) :
  Forall (fun c => c <> 58) b1 -> Forall (fun c => c <> 58) b2 ->
  u1 ++ 58 :: b1 = u2 ++ 58 :: b2 -> u1 = u2 /\ b1 = b2.
Proof.
  intros Hb1 Hb2. revert u2.
  induction u1 as [|x u1 IH]; intros [|y u2] Heq; simpl in Heq.
  - by injection Heq.
  - injection Heq as <- ->. apply Forall_app in Hb1 as [_ Hb1].
    by inversion_clear Hb1.
  - injection Heq as -> <-. apply Forall_app in Hb2 as [_ Hb2].
    by inversion_clear Hb2.
  - injection Heq as -> Heq. apply IH in Heq as [-> ->]. done.
Qed.

Lemma generateCacheKey_Ok config userId key :
  generateCacheKey config userId = Ok key <->
  Base64.isLatin1 (JSON.stringify config) = true /\
  key = str "access-control:" ++ userString userId
        ++ 58 :: Base64.encodeGroups (JSON.stringify config).
Proof.
  unfold generateCacheKey, Base64.btoa.
  destruct (Base64.isLatin1 _); split; try done.
  - by intros [= <-].
  - by intros [_ ->].
  - by intros [? _].
Qed.




(** * Further properties *)

(** ** The evaluator *)

Section EvaluatorFurther.

Implicit Types (config : AccessControlConfig) (user : UserPermissions).
Implicit Types (F : list FeatureFlag) (P L : list jsstring) (x : jsstring).

Lemma includes_subset P P' x :
  (forall p, p ∈ P -> p ∈ P') -> includes P x = true -> includes P' x = true.
Proof. rewrite !includes_true. auto. Qed.

Lemma includes_ext P P' x :
  (forall p, p ∈ P <-> p ∈ P') -> includes P x = includes P' x.
Proof.
  intros Heq. apply eq_true_iff_eq. rewrite !includes_true. apply Heq.
Qed.

Lemma checkPermissionAccess_subset config user user' :
  (forall p, p ∈ permissions user -> p ∈ permissions user') ->
  checkPermissionAccess config user = true ->
  checkPermissionAccess config user' = true.
Proof.
  intros Hsub. unfold checkPermissionAccess, hasPermission, hasAnyPermission,
    hasAllPermissions.
  destruct (permission config) as [[|c s]|].
  2: by apply includes_subset.
  all: destruct (anyPermission config) as [[|y l]|].
  all: try (rewrite !existsb_exists; intros (z & Hz & Hin); exists z;
            split; [done | by apply (includes_subset _ _ _ Hsub)]).
  all: destruct (allPermissions config) as [[|y l]|]; try done.
  all: rewrite !forallb_forall; intros Hall z Hz;
    by apply (includes_subset _ _ _ Hsub), Hall.
Qed.

Lemma calculateFinalAccess_mono rb fc pc fa pa pa' :
  (pa = true -> pa' = true) ->
  calculateFinalAccess rb fc pc fa pa = true ->
  calculateFinalAccess rb fc pc fa pa' = true.
Proof.
  unfold calculateFinalAccess.
  destruct rb, fc, pc, fa, pa, pa'; simpl; auto.
Qed.

End EvaluatorFurther.

(** X1.  Granting a user more permissions never takes an access away: if
    every permission of [user] is one of [user'], whatever [evaluateAccessControl]
    grants to [user] it grants to [user'], under the same config and flags. *)
Theorem evaluateAccessControl_more_permissions
    (config : AccessControlConfig) (user user' : UserPermissions)
    (F : list FeatureFlag) :
  (forall p, p ∈ permissions user -> p ∈ permissions user') ->
  hasAccess (evaluateAccessControl config user F) = true ->
  hasAccess (evaluateAccessControl config user' F) = true.
Proof.
  intros Hsub. simpl. apply calculateFinalAccess_mono.
  by apply checkPermissionAccess_subset.
Qed.

Lemma evaluateAccessControl_more_permissions_witness :
  hasAccess (evaluateAccessControl (permissionConfig (str "READ_USERS"))
               (userWith [str "WRITE_USERS"; str "READ_USERS"]) []) = true.
Proof.
  apply (evaluateAccessControl_more_permissions _ (userWith [str "READ_USERS"])).
  - intros p Hp. simpl in *. apply list_elem_of_further. exact Hp.
  - reflexivity.
Defined.

(** X2.  Only the set of the user's permissions counts: two users whose
    permission arrays have the same members (in any order, with any
    repetition, and whatever their roles and identifiers) get the same
    evaluation. *)
Theorem evaluateAccessControl_permission_set
    (config : AccessControlConfig) (user user' : UserPermissions)
    (F : list FeatureFlag) :
  (forall p, p ∈ permissions user <-> p ∈ permissions user') ->
  evaluateAccessControl config user F = evaluateAccessControl config user' F.
Proof.
  intros Heq.
  assert (Hc : checkPermissionAccess config user = checkPermissionAccess config user').
  { apply eq_true_iff_eq. split; apply checkPermissionAccess_subset;
      intros p; apply Heq. }
  unfold evaluateAccessControl. by rewrite Hc.
Qed.

Lemma evaluateAccessControl_permission_set_witness :
  evaluateAccessControl (permissionConfig (str "b"))
    {| permissions := [str "a"; str "b"; str "a"]; roles := [str "admin"];
       userId := Some (str "u1"); organizationId := None |} []
  = evaluateAccessControl (permissionConfig (str "b"))
      (userWith [str "b"; str "a"]) [].
Proof.
  apply evaluateAccessControl_permission_set. intros p. simpl.
  rewrite !elem_of_cons. tauto.
Defined.

(** X3.  [requireBoth: true] is the stricter mode: an access granted with
    it is granted with any other value of [requireBoth], and the four other
    fields of the evaluation do not depend on [requireBoth]. *)
Theorem evaluateAccessControl_requireBoth_stricter
    (config : AccessControlConfig) (user : UserPermissions)
    (F : list FeatureFlag) (rb : option bool) :
  let strict := evaluateAccessControl (withRequireBoth (Some true) config) user F in
  let other := evaluateAccessControl (withRequireBoth rb config) user F in
  (hasAccess strict = true -> hasAccess other = true) /\
  hasFeatureAccess strict = hasFeatureAccess other /\
  hasPermissionAccess strict = hasPermissionAccess other /\
  hasFeatureCheck strict = hasFeatureCheck other /\
  hasPermissionCheck strict = hasPermissionCheck other.
Proof.
  simpl. split; [| done].
  change (checkFeatureAccess (withRequireBoth _ config) F)
    with (checkFeatureAccess config F).
  change (checkPermissionAccess (withRequireBoth _ config) user)
    with (checkPermissionAccess config user).
  unfold calculateFinalAccess.
  destruct (truthyString (feature config) || _ || _),
    (truthyString (permission config) || _ || _),
    (checkFeatureAccess config F), (checkPermissionAccess config user),
    rb as [[|]|]; simpl; auto.
Qed.

(** X4.  "Any" is symmetric in its two arrays (it tests whether they share a
    member); over a non-empty array of required permissions "all" implies
    "any", and likewise for feature flags. *)
Theorem any_all_checks (F : list FeatureFlag) (P L : list jsstring) :
  hasAnyPermission P L = hasAnyPermission L P /\
  (L <> [] -> hasAllPermissions P L = true -> hasAnyPermission P L = true) /\
  (L <> [] -> hasAllFeatures F L = true -> hasAnyFeature F L = true).
Proof.
  unfold hasAnyPermission, hasAllPermissions, hasAnyFeature, hasAllFeatures.
  repeat split.
  - apply eq_true_iff_eq. rewrite !existsb_exists.
    setoid_rewrite includes_true. setoid_rewrite <- list_elem_of_In.
    split; intros (y & H1 & H2); by exists y.
  - destruct L as [|y L]; [done |]. intros _ Hall. simpl in *.
    apply andb_true_iff in Hall as [-> _]. done.
  - destruct L as [|y L]; [done |]. intros _ Hall. simpl in *.
    apply andb_true_iff in Hall as [-> _]. done.
Qed.

(** X5.  In a flag list made of two parts the first part wins: when a flag
    of [F1] has the identifier as its [id] or [name], [hasFeature] answers
    from [F1] alone, whatever [F2] holds; otherwise it answers from [F2]. *)
Theorem hasFeature_app (F1 F2 : list FeatureFlag) (x : jsstring) :
  hasFeature (F1 ++ F2) x =
    if existsb (fun f => strictEq (id f) x || strictEq (name f) x) F1
    then hasFeature F1 x
    else hasFeature F2 x.
Proof.
  unfold hasFeature. induction F1 as [|f F1 IH]; [done |]. simpl.
  change (strictEq (id f) x || strictEq (name f) x) with (flagMatches x f).
  destruct (flagMatches x f); [done |]. simpl. apply IH.
Qed.

(** ** The cache *)

Section MemoryCacheFurther.

Context {T : Type}.
Implicit Types (cache : gmap jsstring (CacheEntry T)) (key : jsstring).
Implicit Types (now : Z) (v : T).

(** X6.  A [set] replaces what an earlier [set] of the same key stored (data
    and expiry), leaves the reads of every other key as they were, and adds
    one to [size()] exactly when the key was not stored. *)
Theorem MemoryCache_set_overwrites now1 now2 now key key' v1 v2
    (ttl1 ttl2 : option Number.t) cache :
  MemoryCache.set now2 key v2 ttl2 (MemoryCache.set now1 key v1 ttl1 cache)
    = MemoryCache.set now2 key v2 ttl2 cache /\
  (key <> key' ->
   fst (MemoryCache.get now key' (MemoryCache.set now1 key v1 ttl1 cache))
     = fst (MemoryCache.get now key' cache)) /\
  MemoryCache.size (MemoryCache.set now1 key v1 ttl1 cache)
    = match cache !! key with
      | Some _ => MemoryCache.size cache
      | None => S (MemoryCache.size cache)
      end.
Proof.
  unfold MemoryCache.set, MemoryCache.size, MemoryCache.get. repeat split.
  - apply insert_insert_eq.
  - intros Hne. rewrite lookup_insert_ne by done.
    destruct (cache !! key') as [entry|]; [| done].
    by destruct (isCacheValid now entry).
  - rewrite map_size_insert. by destruct (cache !! key).
Qed.

(** X7.  After [delete(k)] a read of [k] returns nothing and the reads of
    the other keys are as before; deleting a key that is not stored changes
    nothing; after [clear()] every read returns nothing and [size()] is 0. *)
Theorem MemoryCache_delete_clear now key key' cache :
  fst (MemoryCache.get now key (MemoryCache.delete key cache)) = None /\
  (key <> key' ->
   fst (MemoryCache.get now key' (MemoryCache.delete key cache))
     = fst (MemoryCache.get now key' cache)) /\
  (cache !! key = None -> MemoryCache.delete key cache = cache) /\
  fst (MemoryCache.get now key (MemoryCache.clear cache)) = None /\
  MemoryCache.size (MemoryCache.clear cache) = 0%nat.
Proof.
  unfold MemoryCache.delete, MemoryCache.clear, MemoryCache.size, MemoryCache.get.
  repeat split.
  - by rewrite lookup_delete_eq.
  - intros Hne. rewrite lookup_delete_ne by done.
    destruct (cache !! key') as [entry|]; [| done].
    by destruct (isCacheValid now entry).
  - apply delete_id.
Qed.

(** X8.  A miss is final and a hit is harmless: once [get(k)] has returned
    nothing, every [get(k)] on the cache it leaves returns nothing, whatever
    the clock reads then; a [get] that returns a value leaves the cache as it
    was, and the same read at any earlier time returns that value too. *)
Theorem MemoryCache_get_stable now key cache :
  (fst (MemoryCache.get now key cache) = None ->
   forall now', fst (MemoryCache.get now' key (snd (MemoryCache.get now key cache)))
                = None) /\
  (forall v, fst (MemoryCache.get now key cache) = Some v ->
     snd (MemoryCache.get now key cache) = cache /\
     forall now0, (now0 <= now)%Z ->
       MemoryCache.get now0 key cache = (Some v, cache)).
Proof.
  unfold MemoryCache.get. split.
  - destruct (cache !! key) as [entry|] eqn:Hk.
    + destruct (isCacheValid now entry); [done |].
      intros _ now'. simpl. by rewrite lookup_delete_eq.
    + intros _ now'. simpl. by rewrite Hk.
  - intros v. destruct (cache !! key) as [entry|] eqn:Hk; [| done].
    destruct (isCacheValid now entry) eqn:Hlt; [| done].
    intros [= <-]. split; [done |]. intros now0 Hle.
    unfold isCacheValid in *.
    by rewrite (NumberFacts.leb_ltb_trans _ _ _ (NumberFacts.ofZ_mono _ _ Hle) Hlt).
Qed.

(** X9.  An entry written without a ttl lives five minutes: it is returned
    by the reads made less than 300000 ms after the write and by no later
    one.  The clock of the write reads a safe integer, and so does it five
    minutes later, as every reading of [Date.now()] does. *)
Theorem MemoryCache_default_ttl now now' key v cache :
  Number.isSafeInteger now = true ->
  Number.isSafeInteger (now + 300000) = true ->
  fst (MemoryCache.get now' key (MemoryCache.set now key v None cache))
  = if (now' <? now + 300000)%Z then Some v else None.
Proof.
  intros Hnow Hlater.
  change (MemoryCache.set now key v None cache)
    with (MemoryCache.set now key v (Some (Number.ofZ 300000)) cache).
  by apply get_set_ofZ.
Qed.

End MemoryCacheFurther.

(** A write on 2024-10-27, read 299999 ms and 300000 ms later. *)
Lemma MemoryCache_default_ttl_witness :
  fst (MemoryCache.get 1730000299999 (str "k")
         (MemoryCache.set 1730000000000 (str "k") 7%nat None ∅)) = Some 7%nat /\
  fst (MemoryCache.get 1730000300000 (str "k")
         (MemoryCache.set 1730000000000 (str "k") 7%nat None ∅)) = None.
Proof.
  split.
  - exact (MemoryCache_default_ttl 1730000000000 1730000299999 (str "k")
             7%nat ∅ eq_refl eq_refl).
  - exact (MemoryCache_default_ttl 1730000000000 1730000300000 (str "k")
             7%nat ∅ eq_refl eq_refl).
Defined.

(** ** The storage adapters *)

(** X10.  [MockStorageAdapter]: a non-empty value written under a key is
    read back, an empty value written reads as [null] (as if it had been
    removed), a removed key reads as [null], and neither [setItem] nor
    [removeItem] changes what another key reads. *)
Theorem MockStorageAdapter_read_write (key key' value : jsstring)
    (storage : MockStorageAdapter.t) :
  fst (MockStorageAdapter.getItem key
         (snd (MockStorageAdapter.setItem key value storage)))
    = Ok (match value with [] => None | _ :: _ => Some value end) /\
  fst (MockStorageAdapter.getItem key
         (snd (MockStorageAdapter.removeItem key storage))) = Ok None /\
  (key <> key' ->
   fst (MockStorageAdapter.getItem key'
          (snd (MockStorageAdapter.setItem key value storage)))
     = fst (MockStorageAdapter.getItem key' storage) /\
   fst (MockStorageAdapter.getItem key'
          (snd (MockStorageAdapter.removeItem key storage)))
     = fst (MockStorageAdapter.getItem key' storage)).
Proof.
  unfold MockStorageAdapter.getItem, MockStorageAdapter.setItem,
    MockStorageAdapter.removeItem. cbn [fst snd]. repeat split.
  - rewrite lookup_insert_eq. by destruct value.
  - by rewrite lookup_delete_eq.
  - by rewrite lookup_insert_ne.
  - by rewrite lookup_delete_ne.
Qed.

Section LocalStorageAdapterFurther.

Context {H : Type} `{!StorageAdapter H}.
Implicit Types (a : LocalStorageAdapter.t H) (key value : jsstring).

(** X11.  [LocalStorageAdapter] over any host storage: no call raises,
    whatever the host does; and over a host that works, a non-empty value
    written under a key is what the next [getItem] of that key returns. *)
Theorem LocalStorageAdapter_contract a key value :
  throws (fst (LocalStorageAdapter.getItem key a)) = false /\
  throws (fst (LocalStorageAdapter.setItem key value a)) = false /\
  throws (fst (LocalStorageAdapter.removeItem key a)) = false /\
  (WorkingAdapter H -> value <> [] ->
   fst (LocalStorageAdapter.getItem key
          (snd (LocalStorageAdapter.setItem key value a))) = Ok (Some value)).
Proof.
  destruct (LocalStorageAdapter_silent a key value) as (Hg & Hs & Hr).
  repeat split; [done.. |]. intros Hw Hne.
  unfold LocalStorageAdapter.getItem, LocalStorageAdapter.setItem.
  pose proof (setItem_ok (LocalStorageAdapter.getKey a key) value
                (LocalStorageAdapter.localStorage a)) as Hset.
  pose proof (getItem_setItem (LocalStorageAdapter.getKey a key) value
                (LocalStorageAdapter.localStorage a) Hne) as Hget.
  destruct (setItem _ value _) as [r h]. simpl in Hset, Hget. subst r.
  cbn [snd LocalStorageAdapter.withHost LocalStorageAdapter.localStorage].
  change (LocalStorageAdapter.getKey (LocalStorageAdapter.withHost a h) key)
    with (LocalStorageAdapter.getKey a key).
  destruct (getItem _ h) as [r' h']. simpl in Hget. by subst r'.
Qed.

(** X12.  Prefixes without a colon keep their key spaces apart: two adapters
    address the same host key only when their prefixes are equal and the
    keys are equal. *)
Theorem LocalStorageAdapter_namespaces (a1 a2 : LocalStorageAdapter.t H) key1 key2 :
  Forall (fun c => c <> 58) (LocalStorageAdapter.keyPrefix a1) ->
  Forall (fun c => c <> 58) (LocalStorageAdapter.keyPrefix a2) ->
  LocalStorageAdapter.getKey a1 key1 = LocalStorageAdapter.getKey a2 key2 ->
  LocalStorageAdapter.keyPrefix a1 = LocalStorageAdapter.keyPrefix a2 /\
  key1 = key2.
Proof.
  unfold LocalStorageAdapter.getKey.
  generalize (LocalStorageAdapter.keyPrefix a1) (LocalStorageAdapter.keyPrefix a2).
  intros p1. induction p1 as [|x p1 IH]; intros [|y p2] H1 H2 Heq;
    simpl in Heq.
  - by injection Heq.
  - injection Heq as <- _. by inversion_clear H2.
  - injection Heq as -> _. by inversion_clear H1.
  - injection Heq as -> Heq. inversion_clear H1. inversion_clear H2.
    destruct (IH p2) as [-> ->]; done.
Qed.

End LocalStorageAdapterFurther.

Lemma LocalStorageAdapter_contract_witness :
  fst (LocalStorageAdapter.getItem (str "k")
         (snd (LocalStorageAdapter.setItem (str "k") (str "v")
                 (localOver (str "access-control") ∅)))) = Ok (Some (str "v")).
Proof.
  refine (proj2 (proj2 (proj2 (LocalStorageAdapter_contract
            (localOver (str "access-control") ∅) (str "k") (str "v"))))
            MockStorageAdapter_WorkingAdapter _).
  discriminate.
Defined.

Lemma LocalStorageAdapter_namespaces_witness :
  LocalStorageAdapter.keyPrefix (localOver (str "app") ∅)
  = LocalStorageAdapter.keyPrefix (localOver (str "app") {[ str "x" := str "y" ]})
  /\ str "k" = str "k".
Proof.
  apply (LocalStorageAdapter_namespaces (localOver (str "app") ∅)
           (localOver (str "app") {[ str "x" := str "y" ]}) (str "k") (str "k")).
  - simpl. repeat constructor; discriminate.
  - simpl. repeat constructor; discriminate.
  - reflexivity.
Defined.

Section MultiTierStorageAdapterFurther.

Context {S : Type} `{!StorageAdapter S}.
Implicit Types (adapters pre post : list S) (key value : jsstring).

(** X13.  [MultiTierStorageAdapter]: no call raises, whatever the tiers do,
    and every call leaves as many tiers as it found. *)
Theorem MultiTierStorageAdapter_contract adapters key value :
  throws (fst (MultiTierStorageAdapter.getItem key adapters)) = false /\
  throws (fst (MultiTierStorageAdapter.setItem key value adapters)) = false /\
  throws (fst (MultiTierStorageAdapter.removeItem key adapters)) = false /\
  length (snd (MultiTierStorageAdapter.getItem key adapters)) = length adapters /\
  length (snd (MultiTierStorageAdapter.setItem key value adapters)) = length adapters /\
  length (snd (MultiTierStorageAdapter.removeItem key adapters)) = length adapters.
Proof.
  destruct (MultiTierStorageAdapter_silent adapters key value) as (Hg & Hs & Hr).
  repeat split; [done.. | | |]; clear Hg Hs Hr.
  - induction adapters as [|adapter rest IH]; [done |]. simpl.
    destruct (getItem key adapter) as [[[v|]|e] adapter']; simpl;
      [done | |]; destruct (MultiTierStorageAdapter.getItem key rest);
      simpl in *; by rewrite IH.
  - simpl. by rewrite length_map.
  - simpl. by rewrite length_map.
Qed.

(** X14.  [getItem] returns the value of the first tier that has one: the
    tiers before it, which answer [null] or raise, are passed over, and the
    tiers after it are not called.  When every tier answers [null] or raises,
    the answer is [null]. *)
Theorem MultiTierStorageAdapter_first_hit pre adapter post key v :
  Forall (tierMisses key) pre ->
  fst (getItem key adapter) = Ok (Some v) ->
  MultiTierStorageAdapter.getItem key (pre ++ adapter :: post)
    = (Ok (Some v),
       List.map (fun a => snd (getItem key a)) pre
       ++ snd (getItem key adapter) :: post) /\
  fst (MultiTierStorageAdapter.getItem key pre) = Ok None.
Proof.
  intros Hpre Hhit. induction Hpre as [|a pre Ha _ [IH1 IH2]]; simpl.
  - split; [| done]. destruct (getItem key adapter) as [r adapter'].
    simpl in Hhit. by subst r.
  - rewrite IH1.
    destruct (MultiTierStorageAdapter.getItem key pre) as [r pre'].
    simpl in IH2. subst r.
    destruct Ha as [Ha | Ha]; destruct (getItem key a) as [[[w|]|e] a'];
      simpl in Ha; try done.
Qed.

(** X15.  Over tiers that work, a non-empty value written by [setItem] to
    every tier is what [getItem] then returns, as soon as there is a tier;
    with no tier at all [getItem] returns [null]. *)
Theorem MultiTierStorageAdapter_roundtrip `{!WorkingAdapter S} adapters key value :
  adapters <> [] ->
  value <> [] ->
  fst (MultiTierStorageAdapter.getItem key
         (snd (MultiTierStorageAdapter.setItem key value adapters)))
    = Ok (Some value) /\
  fst (MultiTierStorageAdapter.getItem key
         (snd (MultiTierStorageAdapter.setItem key value []))) = Ok None.
Proof.
  intros Hne Hv. split; [| done].
  destruct adapters as [|adapter rest]; [done |]. simpl.
  pose proof (getItem_setItem key value adapter Hv) as Hget.
  destruct (getItem key (snd (setItem key value adapter))) as [r a'].
  simpl in Hget. by subst r.
Qed.

End MultiTierStorageAdapterFurther.

Lemma MultiTierStorageAdapter_first_hit_witness :
  fst (MultiTierStorageAdapter.getItem (str "k") disabledThenMock)
  = Ok (Some (str "v")).
Proof.
  refine (f_equal fst (proj1 (MultiTierStorageAdapter_first_hit
            [inl Disabled] (inr {[ str "k" := str "v" ]}) [] (str "k") (str "v")
            _ _))).
  - constructor; [| constructor]. right. reflexivity.
  - reflexivity.
Defined.

Lemma MultiTierStorageAdapter_roundtrip_witness :
  fst (MultiTierStorageAdapter.getItem (str "k")
         (snd (MultiTierStorageAdapter.setItem (str "k") (str "v") twoMocks)))
  = Ok (Some (str "v")).
Proof.
  refine (proj1 (MultiTierStorageAdapter_roundtrip twoMocks (str "k") (str "v")
                   _ _)); discriminate.
Defined.

Section EncryptedStorageAdapterFurther.

Import Base64 Base64Facts.

Context {B : Type} `{!StorageAdapter B}.
Implicit Types (a : EncryptedStorageAdapter.t B) (key value text secret : jsstring).

Lemma xorLoop_length secret i text :
  length (EncryptedStorageAdapter.xorLoop secret i text) = length text.
Proof.
  revert i. induction text as [|c rest IH]; intros i; simpl; [done |].
  by rewrite IH.
Qed.

Lemma xorLoop_empty_key i text : EncryptedStorageAdapter.xorLoop [] i text = text.
Proof.
  revert i. induction text as [|c rest IH]; intros i; simpl; [done |].
  by rewrite IH, N.lxor_0_r.
Qed.

Lemma encodeGroups_length s :
  length (encodeGroups s) = (4 * ((length s + 2) / 3))%nat.
Proof.
  induction s as [|a|a b|a b c l IH] using list_ind3; try reflexivity.
  change (encodeGroups (a :: b :: c :: l)) with
    (b64char (a / 4) :: b64char ((a mod 4) * 16 + b / 16)
     :: b64char ((b mod 16) * 4 + c / 64) :: b64char (c mod 64)
     :: encodeGroups l).
  cbn [length]. rewrite IH.
  replace (S (S (S (length l))) + 2)%nat with (length l + 2 + 1 * 3)%nat by lia.
  rewrite Nat.div_add by done. lia.
Qed.

Lemma encodeGroups_printable s : Forall (fun c => 43 <= c <= 122) (encodeGroups s).
Proof.
  apply List.Forall_forall. intros c. rewrite encodeGroups_split.
  intros [Hc | Hc]%in_app_or.
  - apply in_map_iff in Hc as (i & <- & _). apply b64char_range.
  - destruct (padding_cases s) as [Hp | [Hp | Hp]]; rewrite Hp in Hc;
      simpl in Hc; intuition (subst; lia).
Qed.

(** X16.  The obfuscation is reversible where it is defined, and it is
    defined on Latin-1: for a secret key and a text without a code unit
    above U+00FF, [encrypt] returns a text and [decrypt] of it is the
    original. *)
Theorem EncryptedStorageAdapter_encrypt_decrypt secret text :
  isLatin1 secret = true ->
  isLatin1 text = true ->
  exists e,
    EncryptedStorageAdapter.encrypt secret text = Ok e /\
    EncryptedStorageAdapter.decrypt secret e = Ok text.
Proof.
  intros Hs Ht.
  exists (encodeGroups (EncryptedStorageAdapter.xorLoop secret 0 text)).
  assert (He : EncryptedStorageAdapter.encrypt secret text
               = Ok (encodeGroups (EncryptedStorageAdapter.xorLoop secret 0 text))).
  { unfold EncryptedStorageAdapter.encrypt, btoa.
    by rewrite xorLoop_isLatin1. }
  split; [done |]. by apply decrypt_encrypt.
Qed.

(** X17.  What [encrypt] returns is printable ASCII of the base64 alphabet
    (code units from [+] to [z]), four characters for every three code units
    of the text, rounded up; with an empty secret key it is [btoa] of the
    text itself. *)
Theorem EncryptedStorageAdapter_encrypt_output secret text e :
  EncryptedStorageAdapter.encrypt secret text = Ok e ->
  Forall (fun c => 43 <= c <= 122) e /\
  length e = (4 * ((length text + 2) / 3))%nat /\
  EncryptedStorageAdapter.encrypt [] text = btoa text.
Proof.
  unfold EncryptedStorageAdapter.encrypt. intros [_ ->]%btoa_Ok.
  repeat split.
  - apply encodeGroups_printable.
  - by rewrite encodeGroups_length, xorLoop_length.
  - by rewrite xorLoop_empty_key.
Qed.

(** X18.  [getItem] adds no exception of its own: when the base adapter
    answers, so does [getItem], whatever text is stored; and it answers
    [null] exactly when the base adapter answers [null] or the empty
    string. *)
Theorem EncryptedStorageAdapter_getItem_answers a key v b :
  getItem key (EncryptedStorageAdapter.baseAdapter a) = (Ok v, b) ->
  exists r,
    fst (EncryptedStorageAdapter.getItem key a) = Ok r /\
    (r = None <-> v = None \/ v = Some []).
Proof.
  intros Hbase. unfold EncryptedStorageAdapter.getItem. rewrite Hbase.
  destruct v as [[|c s]|].
  - exists None. split; [done |]. split; auto.
  - destruct (decrypt_Ok (EncryptedStorageAdapter.secretKey a) (c :: s))
      as [text Hd].
    rewrite Hd. exists (Some text). split; [done |].
    split; [done |]. by intros [? | ?].
  - exists None. split; [done |]. split; auto.
Qed.

End EncryptedStorageAdapterFurther.

Lemma EncryptedStorageAdapter_encrypt_decrypt_witness :
  exists e,
    EncryptedStorageAdapter.encrypt (str "key") (str "secret") = Ok e /\
    EncryptedStorageAdapter.decrypt (str "key") e = Ok (str "secret").
Proof.
  apply (EncryptedStorageAdapter_encrypt_decrypt (str "key") (str "secret"));
    reflexivity.
Defined.

Lemma EncryptedStorageAdapter_encrypt_output_witness :
  Forall (fun c => 43 <= c <= 122) (str "GAAaGQAN") /\
  length (str "GAAaGQAN") = (4 * ((length (str "secret") + 2) / 3))%nat /\
  EncryptedStorageAdapter.encrypt [] (str "secret") = Base64.btoa (str "secret").
Proof.
  apply (EncryptedStorageAdapter_encrypt_output (str "key") (str "secret")).
  reflexivity.
Defined.

Lemma EncryptedStorageAdapter_getItem_answers_witness :
  exists r,
    fst (EncryptedStorageAdapter.getItem (str "k") encryptedMockMalformed) = Ok r /\
    (r = None <-> Some (str "!!!") = None \/ Some (str "!!!") = Some []).
Proof.
  apply (EncryptedStorageAdapter_getItem_answers encryptedMockMalformed (str "k")
           (Some (str "!!!")) {[ str "k" := str "!!!" ]}).
  reflexivity.
Defined.

(** ** The cache key *)

Section CacheKeyFurther.

Import Base64 Base64Facts JSON JSONFacts.

Local Ltac Zify.zify_post_hook ::= Z.to_euclidean_division_equations.

Lemma isLatin1_app s1 s2 : isLatin1 (s1 ++ s2) = isLatin1 s1 && isLatin1 s2.
Proof. apply forallb_app. Qed.

Lemma hexDigit_latin1 d : d < 16 -> (hexDigit d <=? 255) = true.
Proof. intros Hd. apply N.leb_le. unfold hexDigit. N_cases; lia. Qed.

Lemma quoteUnit_latin1 c : c <= 255 -> isLatin1 (quoteUnit c) = true.
Proof.
  intros Hc. unfold quoteUnit, unicodeEscape.
  repeat match goal with
  | |- context [N.eqb ?a ?b] => destruct (N.eqb_spec a b); [done |]
  end.
  destruct (_ || _ || _).
  - cbn [isLatin1 forallb]. rewrite !hexDigit_latin1 by lia. done.
  - cbn. rewrite andb_true_r. by apply N.leb_le.
Qed.

Lemma quoteBody_latin1 s : isLatin1 s = true -> isLatin1 (quoteBody s) = true.
Proof.
  induction s as [|c d rest Hp IH|c rest Hq IH] using quoteBody_ind; intros Hs.
  - done.
  - change (quoteBody (c :: d :: rest)) with
      (if isLeadingSurrogate c && isTrailingSurrogate d
       then c :: d :: quoteBody rest
       else quoteUnit c ++ quoteBody (d :: rest)).
    rewrite Hp. cbn [isLatin1 forallb] in *.
    apply andb_true_iff in Hs as [Hc Hs]. apply andb_true_iff in Hs as [Hd Hs].
    rewrite Hc, Hd. by apply IH.
  - rewrite Hq, isLatin1_app. cbn [isLatin1 forallb] in Hs.
    apply andb_true_iff in Hs as [Hc Hs].
    rewrite quoteUnit_latin1 by by apply N.leb_le. by apply IH.
Qed.

Lemma quoteJSONString_latin1 s :
  isLatin1 s = true -> isLatin1 (quoteJSONString s) = true.
Proof.
  intros Hs. unfold quoteJSONString.
  change (34 :: quoteBody s ++ [34]) with ([34] ++ quoteBody s ++ [34]).
  by rewrite !isLatin1_app, quoteBody_latin1.
Qed.

Lemma joinComma_latin1 l :
  forallb isLatin1 l = true -> isLatin1 (joinComma l) = true.
Proof.
  destruct l as [|x l]; [done |]. cbn [forallb joinComma].
  intros [Hx Hl]%andb_true_iff. rewrite isLatin1_app, Hx. simpl.
  induction l as [|y l IH]; [done |]. cbn [forallb List.map concat] in *.
  apply andb_true_iff in Hl as [Hy Hl].
  change ((44 :: y) ++ ?r) with ([44] ++ y ++ r).
  rewrite !isLatin1_app, Hy. by apply IH.
Qed.

Lemma serializeArray_latin1 l :
  forallb isLatin1 l = true -> isLatin1 (serializeArray l) = true.
Proof.
  intros Hl. unfold serializeArray.
  change (91 :: ?j ++ [93]) with ([91] ++ j ++ [93]).
  rewrite !isLatin1_app, joinComma_latin1; [done |].
  rewrite forallb_forall in *. intros x [s [<- Hs]]%in_map_iff.
  by apply quoteJSONString_latin1, Hl.
Qed.

Lemma serializeBoolean_latin1 b : isLatin1 (serializeBoolean b) = true.
Proof. by destruct b. Qed.

Lemma partial_latin1 props :
  Forall (fun p => isLatin1 (fst p) = true /\
                   forall v, snd p = Some v -> isLatin1 v = true) props ->
  forallb isLatin1 (partial props) = true.
Proof.
  induction 1 as [|[key [v|]] props [Hk Hv] _ IH]; [done | | done].
  cbn [partial forallb]. rewrite IH, andb_true_r.
  change (quoteJSONString key ++ 58 :: v)
    with (quoteJSONString key ++ [58] ++ v).
  rewrite !isLatin1_app, quoteJSONString_latin1 by done.
  simpl. by apply Hv.
Qed.

Lemma serializeProperty_latin1 config k v :
  configIsLatin1 config = true -> serializeProperty config k = Some v ->
  isLatin1 v = true.
Proof.
  unfold configIsLatin1. rewrite !andb_true_iff.
  intros [[[[[H1 H2] H3] H4] H5] H6] Hv.
  destruct k; cbn [serializeProperty] in Hv.
  - destruct (feature config); simplify_eq/=. by apply quoteJSONString_latin1.
  - destruct (anyFeature config); simplify_eq/=. by apply serializeArray_latin1.
  - destruct (allFeatures config); simplify_eq/=. by apply serializeArray_latin1.
  - destruct (permission config); simplify_eq/=. by apply quoteJSONString_latin1.
  - destruct (anyPermission config); simplify_eq/=. by apply serializeArray_latin1.
  - destruct (allPermissions config); simplify_eq/=. by apply serializeArray_latin1.
  - destruct (requireBoth config); simplify_eq/=. apply serializeBoolean_latin1.
Qed.

Lemma stringify_latin1 (config : ConfigObject) :
  configIsLatin1 (fields config) = true -> isLatin1 (stringify config) = true.
Proof.
  intros Hc. unfold stringify, serializeObject.
  change (123 :: ?j ++ [125]) with ([123] ++ j ++ [125]).
  rewrite !isLatin1_app, joinComma_latin1; [done |].
  apply partial_latin1. unfold properties.
  apply List.Forall_forall. intros p [k [<- _]]%in_map_iff. cbn [fst snd]. split.
  - by destruct k.
  - intros v. by apply serializeProperty_latin1.
Qed.

End CacheKeyFurther.

(** X19.  A config whose strings have no code unit above U+00FF always gets
    a cache key, whatever the user identifier (which may hold any code unit);
    and whether [generateCacheKey] raises never depends on the user
    identifier. *)
Theorem generateCacheKey_defined (config : ConfigObject)
    (userId userId' : option jsstring) :
  (configIsLatin1 (fields config) = true ->
   exists key, generateCacheKey config userId = Ok key) /\
  throws (generateCacheKey config userId) = throws (generateCacheKey config userId').
Proof.
  unfold generateCacheKey, Base64.btoa. split.
  - intros Hc. rewrite stringify_latin1 by done. eauto.
  - by destruct (Base64.isLatin1 _).
Qed.

(** ** [deepEqual] *)

Example deepEqual_objectAB_objectBA : deepEqual objectAB objectBA = true.
Proof. reflexivity. Qed.

Example deepEqual_NaN : deepEqual (VNumber None) (VNumber None) = false.
Proof. reflexivity. Qed.

Example deepEqual_null_undefined : deepEqual VNull VUndefined = false.
Proof. reflexivity. Qed.

Section DeepEqual.

Implicit Types (a b : JsValue) (props aProps bProps : list (jsstring * JsValue)).
Implicit Types (key : jsstring).

(** Values by their structure, the properties of an object first. *)
Lemma JsValue_nested_ind (P : JsValue -> Prop) :
  P VUndefined -> P VNull -> (forall x, P (VBoolean x)) ->
  (forall n, P (VNumber n)) -> (forall s, P (VString s)) ->
  (forall r, P (VFunction r)) ->
  (forall r props, Forall (fun p => P (snd p)) props -> P (VObject r props)) ->
  forall a, P a.
Proof.
  intros Hu Hn Hb Hnum Hs Hf Ho. fix IH 1.
  intros [| |x|n|s|r|r props];
    [apply Hu | apply Hn | apply Hb | apply Hnum | apply Hs | apply Hf |].
  apply Ho. induction props as [|[k v] rest IHrest]; constructor.
  - apply IH.
  - apply IHrest.
Qed.

(** What [deepEqual] computes on two objects. *)
Lemma deepEqual_objects r1 aProps r2 bProps :
  deepEqual (VObject r1 aProps) (VObject r2 bProps) =
    if (r1 =? r2)%nat then true
    else (length aProps =? length bProps)%nat
         && forallb (fun p => includes (objectKeys bProps) (fst p)
                              && deepEqual (snd p) (getProp bProps (fst p)))
              aProps.
Proof.
  cbn [deepEqual strictEquals looseNull typeof orb].
  destruct (r1 =? r2)%nat; [done |].
  change (strictEq (str "object") (str "object")) with true. cbn [negb].
  unfold objectKeys at 1 2. rewrite !length_map.
  destruct (length aProps =? length bProps)%nat; [| done]. cbn [negb andb].
  induction aProps as [|[key v] rest IH]; [done |]. cbn [forallb fst snd].
  destruct (includes _ key); [| done]. cbn [negb andb].
  destruct (deepEqual v _); [| done]. cbn [negb andb]. apply IH.
Qed.

(** Unless both values are objects, [deepEqual] is [===]. *)
Lemma deepEqual_strictEquals a b :
  (forall r props, a <> VObject r props) \/ (forall r props, b <> VObject r props) ->
  deepEqual a b = strictEquals a b.
Proof.
  intros Hno.
  destruct a as [| |x|[n|]|s|r|r props], b as [| |y|[m|]|t|r'|r' props'];
    try reflexivity;
    try (cbn; by destruct (_ =? _)%Z);
    try (cbn; by destruct (Bool.eqb _ _));
    try (cbn; by destruct (strictEq _ _));
    try (cbn; by destruct (_ =? _)%nat).
  destruct Hno as [Hno | Hno]; by edestruct Hno.
Qed.

Lemma strictEquals_sym a b : strictEquals a b = strictEquals b a.
Proof.
  destruct a as [| |x|[n|]|s|r|r props], b as [| |y|[m|]|t|r'|r' props'];
    try reflexivity; cbn.
  - by destruct x, y.
  - apply Z.eqb_sym.
  - unfold strictEq. apply bool_decide_ext. split; congruence.
  - apply Nat.eqb_sym.
  - apply Nat.eqb_sym.
Qed.

Lemma distinctKeys_object r props :
  distinctKeys (VObject r props) <->
  List.NoDup (objectKeys props) /\ Forall (fun p => distinctKeys (snd p)) props.
Proof.
  cbn [distinctKeys]. apply and_iff_compat_l.
  induction props as [|[k v] rest IH]; [by split; [constructor |] |].
  rewrite Forall_cons, IH. done.
Qed.

Lemma includes_objectKeys props key :
  includes (objectKeys props) key = true <-> In key (objectKeys props).
Proof. by rewrite includes_true, list_elem_of_In. Qed.

(** With distinct keys, [obj[key]] is the value the key is stored with. *)
Lemma getProp_In props key v :
  List.NoDup (objectKeys props) -> In (key, v) props -> getProp props key = v.
Proof.
  induction props as [|[k w] rest IH]; [done |]. cbn [objectKeys List.map fst].
  intros [Hfresh Hnodup]%List.NoDup_cons_iff [Heq | Hin]; cbn [getProp].
  - injection Heq as -> ->. by rewrite (proj2 (strictEq_true key key)).
  - destruct (strictEq k key) eqn:Hk; [| by apply IH].
    apply strictEq_true in Hk as ->. exfalso. apply Hfresh.
    apply in_map_iff. by exists (key, v).
Qed.

Lemma getProp_absent props key :
  ~ In key (objectKeys props) -> getProp props key = VUndefined.
Proof.
  induction props as [|[k w] rest IH]; [done |]. cbn [objectKeys List.map fst getProp].
  intros Hnot. destruct (strictEq k key) eqn:Hk.
  - apply strictEq_true in Hk as ->. exfalso. apply Hnot. by left.
  - apply IH. intros Hin. apply Hnot. by right.
Qed.

Lemma sameProperties_true aProps bProps :
  sameProperties aProps bProps = true <->
  length aProps = length bProps /\
  forall key v, In (key, v) aProps ->
    In key (objectKeys bProps) /\ deepEqual v (getProp bProps key) = true.
Proof.
  unfold sameProperties. rewrite andb_true_iff, Nat.eqb_eq, forallb_forall.
  apply and_iff_compat_l. split.
  - intros Hall key v Hin. specialize (Hall _ Hin). cbn [fst snd] in Hall.
    apply andb_true_iff in Hall as [Hk Hv]. by apply includes_objectKeys in Hk.
  - intros Hall [key v] Hin. destruct (Hall _ _ Hin) as [Hk Hv].
    cbn [fst snd]. apply andb_true_iff. split; [| done].
    by apply includes_objectKeys.
Qed.

(** The keys of two objects with the same properties are the same. *)
Lemma sameProperties_keys aProps bProps :
  List.NoDup (objectKeys aProps) ->
  sameProperties aProps bProps = true ->
  forall key, In key (objectKeys bProps) -> In key (objectKeys aProps).
Proof.
  intros Hnodup [Hlen Hall]%sameProperties_true.
  apply (NoDup_length_incl Hnodup).
  - unfold objectKeys. rewrite !length_map. lia.
  - intros key [[k v] [<- Hin]]%in_map_iff. by apply (Hall k v).
Qed.

Lemma sameProperties_swap aProps bProps :
  List.NoDup (objectKeys aProps) -> List.NoDup (objectKeys bProps) ->
  (forall ka va kb vb, In (ka, va) aProps -> In (kb, vb) bProps ->
     deepEqual va vb = true -> deepEqual vb va = true) ->
  sameProperties aProps bProps = true -> sameProperties bProps aProps = true.
Proof.
  intros Ha Hb Hsym Hsame.
  pose proof (sameProperties_keys _ _ Ha Hsame) as Hkeys.
  apply sameProperties_true in Hsame as [Hlen Hall].
  apply sameProperties_true. split; [done |]. intros key vb Hin.
  assert (Hk : In key (objectKeys aProps)).
  { apply Hkeys, in_map_iff. by exists (key, vb). }
  split; [done |].
  apply in_map_iff in Hk as [[k va] [Heq Hina]]. cbn in Heq. subst k.
  rewrite (getProp_In aProps key va) by done.
  apply (Hsym key va key vb); [done.. |].
  destruct (Hall _ _ Hina) as [_ Hv].
  by rewrite (getProp_In bProps key vb) in Hv.
Qed.

End DeepEqual.

(** X20.  [deepEqual] is symmetric on values whose objects have distinct
    keys: the order of the two arguments does not matter. *)
Theorem deepEqual_sym (a b : JsValue) :
  distinctKeys a -> distinctKeys b -> deepEqual a b = deepEqual b a.
Proof.
  revert b. induction a as [| |x|n|s|r|r aProps IH] using JsValue_nested_ind;
    intros b Ha Hb.
  1-6: rewrite (deepEqual_strictEquals _ b), (deepEqual_strictEquals b _),
         strictEquals_sym; [done | by right | by left].
  destruct b as [| |y|m|t|r'|r' bProps].
  1-6: rewrite (deepEqual_strictEquals _ (VObject r aProps)),
         (deepEqual_strictEquals (VObject r aProps) _), strictEquals_sym;
         [done | by right | by left].
  rewrite !deepEqual_objects, (Nat.eqb_sym r' r).
  destruct (r =? r')%nat; [done |].
  apply distinctKeys_object in Ha as [Ha Hva].
  apply distinctKeys_object in Hb as [Hb Hvb].
  rewrite List.Forall_forall in IH, Hva, Hvb.
  assert (Hsym : forall ka va kb vb, In (ka, va) aProps -> In (kb, vb) bProps ->
                   deepEqual va vb = deepEqual vb va).
  { intros ka va kb vb Hina Hinb.
    apply (IH (ka, va) Hina vb); [apply (Hva _ Hina) | apply (Hvb _ Hinb)]. }
  change (sameProperties aProps bProps = sameProperties bProps aProps).
  apply eq_true_iff_eq. split; apply sameProperties_swap; try done.
  - intros ka va kb vb Hina Hinb. by rewrite (Hsym ka va kb vb).
  - intros kb vb ka va Hinb Hina. by rewrite (Hsym ka va kb vb).
Qed.

Lemma deepEqual_sym_witness : deepEqual objectAB objectBA = deepEqual objectBA objectAB.
Proof.
  apply deepEqual_sym; cbn; repeat split; repeat constructor;
    rewrite ?elem_of_cons, ?elem_of_nil; cbn; intuition discriminate.
Defined.

Lemma getProp_Permutation (props props' : list (jsstring * JsValue)) (key : jsstring) :
  List.NoDup (objectKeys props) -> Permutation props props' ->
  getProp props key = getProp props' key.
Proof.
  intros Hnodup Hperm.
  assert (Hnodup' : List.NoDup (objectKeys props')).
  { apply (Permutation_NoDup (l := objectKeys props)); [| done].
    by apply Permutation_map. }
  destruct (decide (key ∈ objectKeys props)) as [Hin | Hnot];
    rewrite list_elem_of_In in *.
  - apply in_map_iff in Hin as [[k v] [Heq Hin]]. cbn in Heq. subst k.
    rewrite (getProp_In props key v), (getProp_In props' key v); try done.
    by apply (Permutation_in _ Hperm).
  - rewrite !getProp_absent; try done.
    intros Hin. apply Hnot.
    apply (Permutation_in (l := objectKeys props')); [| done].
    apply Permutation_map. by symmetry.
Qed.

(** X21.  [deepEqual] does not see the order of the keys: listing the
    properties of either object in another order gives the same answer. *)
Theorem deepEqual_key_order (r1 r2 : nat)
    (aProps aProps' bProps bProps' : list (jsstring * JsValue)) :
  List.NoDup (objectKeys bProps) ->
  Permutation aProps aProps' ->
  Permutation bProps bProps' ->
  deepEqual (VObject r1 aProps) (VObject r2 bProps)
  = deepEqual (VObject r1 aProps') (VObject r2 bProps').
Proof.
  intros Hnodup Ha Hb. rewrite !deepEqual_objects.
  destruct (r1 =? r2)%nat; [done |].
  rewrite (Permutation_length Ha), (Permutation_length Hb). f_equal.
  apply eq_true_iff_eq. rewrite !forallb_forall.
  assert (Hpred : forall p,
    includes (objectKeys bProps) (fst p)
    && deepEqual (snd p) (getProp bProps (fst p))
    = includes (objectKeys bProps') (fst p)
      && deepEqual (snd p) (getProp bProps' (fst p))).
  { intros p. rewrite (getProp_Permutation bProps bProps') by done. f_equal.
    apply eq_true_iff_eq. rewrite !includes_objectKeys.
    split; apply Permutation_in; apply Permutation_map; [done | by symmetry]. }
  split; intros Hall p Hin.
  - rewrite <- Hpred. apply Hall. by apply (Permutation_in _ (Permutation_sym Ha)).
  - rewrite Hpred. apply Hall. by apply (Permutation_in _ Ha).
Qed.

Lemma deepEqual_key_order_witness :
  deepEqual (VObject 1 [(str "a", VNull); (str "b", VBoolean true)])
    (VObject 2 [(str "a", VNull); (str "b", VBoolean true)])
  = deepEqual (VObject 1 [(str "b", VBoolean true); (str "a", VNull)])
      (VObject 2 [(str "b", VBoolean true); (str "a", VNull)]).
Proof.
  apply deepEqual_key_order.
  - cbn. repeat constructor; cbn; intuition discriminate.
  - apply perm_swap.
  - apply perm_swap.
Defined.

(** X22.  Unless both values are objects, [deepEqual] is [===] (so [NaN]
    never equals [NaN], and [null] never equals [undefined]); two objects
    that are not the same reference are deep-equal only if they have the same
    keys and, under every key, deep-equal values. *)
Theorem deepEqual_meaning (a b : JsValue) (r1 r2 : nat)
    (aProps bProps : list (jsstring * JsValue)) :
  ((forall r props, a <> VObject r props) \/ (forall r props, b <> VObject r props) ->
   deepEqual a b = strictEquals a b) /\
  (r1 <> r2 ->
   List.NoDup (objectKeys aProps) ->
   deepEqual (VObject r1 aProps) (VObject r2 bProps) = true ->
   (forall key, In key (objectKeys aProps) <-> In key (objectKeys bProps)) /\
   (forall key, In key (objectKeys aProps) ->
      deepEqual (getProp aProps key) (getProp bProps key) = true)).
Proof.
  split; [apply deepEqual_strictEquals |].
  intros Hr Hnodup. rewrite deepEqual_objects.
  rewrite (proj2 (Nat.eqb_neq r1 r2) Hr).
  change ((length aProps =? length bProps)%nat && _)
    with (sameProperties aProps bProps).
  intros Hsame.
  pose proof (sameProperties_keys _ _ Hnodup Hsame) as Hkeys.
  apply sameProperties_true in Hsame as [Hlen Hall]. split.
  - intros key. split; [| apply Hkeys].
    intros [[k v] [<- Hin]]%in_map_iff. by apply (Hall k v).
  - intros key [[k v] [<- Hin]]%in_map_iff. cbn [fst].
    rewrite (getProp_In aProps k v) by done. by apply (Hall k v).
Qed.

(** ** The derived state of the feature flags *)

(** X23.  The derived state of [useFeatureFlags] and
    [useFeatureFlagsContext]: the enabled and the disabled flags split the
    list ([enabledCount] and the number of disabled flags add up to
    [featureCount]); [hasFeature] holds exactly when [getFeature] finds a
    flag and that flag is enabled, in which case it is one of
    [enabledFeatures]; and a flag returned by [getFeaturesByCategory] is a
    flag of the list that has this category. *)
Theorem featureFlags_derived (F : list FeatureFlag) (x cat : jsstring) :
  (FeatureFlags.enabledCount F + length (FeatureFlags.disabledFeatures F)
   = FeatureFlags.featureCount F)%nat /\
  (hasFeature F x = true <->
   exists f, FeatureFlags.getFeature F x = Some f /\ enabled f = true) /\
  (forall f, FeatureFlags.getFeature F x = Some f -> enabled f = true ->
     In f (FeatureFlags.enabledFeatures F)) /\
  (forall f, In f (FeatureFlags.getFeaturesByCategory F cat) <->
     In f F /\ category f = Some cat).
Proof.
  unfold FeatureFlags.enabledCount, FeatureFlags.disabledFeatures,
    FeatureFlags.featureCount, FeatureFlags.getFeature,
    FeatureFlags.enabledFeatures, FeatureFlags.getFeaturesByCategory, hasFeature.
  change (fun f => strictEq (id f) x || strictEq (name f) x) with (flagMatches x).
  split; [| split; [| split]].
  - induction F as [|f F IH]; [done |]. simpl.
    destruct (enabled f); simpl; lia.
  - destruct (List.find _ F) as [f|].
    + split; [intros Hen; by exists f | by intros (g & [= <-] & Hen)].
    + split; [done | by intros (g & ? & _)].
  - intros f Hfind Hen. apply filter_In. split; [| done].
    by apply find_some in Hfind as [Hin _].
  - intros f. rewrite filter_In. apply and_iff_compat_l.
    destruct (category f) as [c|]; [| done].
    rewrite strictEq_true. split; congruence.
Qed.

(** ** The provider's loaders *)

Section ProviderLoaders.

Import Provider.

Implicit Types (config : Config) (st : State) (providerCache : cache).

Lemma load_miss {A} key (inject : A -> CachedData) setData setLoading setFailure
    fetch message config now now' fetched providerCache :
  default true (enableCache config) = false \/
  fst (MemoryCache.get now key providerCache) = None ->
  load key inject setData setLoading setFailure fetch message config now now'
    fetched providerCache
  = let providerCache' :=
      if default true (enableCache config)
      then snd (MemoryCache.get now key providerCache) else providerCache in
    match fetched with
    | Fulfilled data =>
      ([setLoading true; setFailure None; fetch; setData (inject data);
        setLoading false],
       if default true (enableCache config)
       then MemoryCache.set now' key (inject data)
              (Some (default (Number.ofZ (5 * 60 * 1000)) (cacheTimeout config)))
              providerCache'
       else providerCache')
    | Rejected reason =>
      let error :=
        match reason with
        | ReasonError e => e
        | ReasonOther => {| message := message |}
        end in
      ([setLoading true; setFailure None; fetch; setFailure (Some error)]
       ++ (if onError config then [OnError error] else [])
       ++ [setLoading false], providerCache')
    end.
Proof.
  unfold load. destruct (default true (enableCache config)).
  - intros [? | Hmiss]; [done |].
    destruct (MemoryCache.get now key providerCache) as [cached c].
    simpl in Hmiss. subst cached. done.
  - done.
Qed.

Lemma load_hit {A} key (inject : A -> CachedData) setData setLoading setFailure
    fetch message config now now' fetched providerCache data :
  default true (enableCache config) = true ->
  fst (MemoryCache.get now key providerCache) = Some data ->
  load key inject setData setLoading setFailure fetch message config now now'
    fetched providerCache
  = ([setLoading true; setFailure None; setData data; setLoading false;
      setLoading false], providerCache).
Proof.
  unfold load. intros -> Hhit.
  apply get_Some_valid in Hhit as (entry & Hk & <- & Hvalid).
  by rewrite (get_valid now key providerCache entry Hk Hvalid).
Qed.

(** X24.  Read-through caching of the permissions.  With the cache enabled,
    a refresh that fetches [p] makes exactly one fetch and sets the user to
    [p].  A load made after it is served from the cache, with no fetch and
    whatever the fetch would give, exactly when its clock is below the
    Number [now' + cacheTimeout] that was stored with the data, a sum of
    Numbers: the user is then set to [p] again, with no error and
    [isLoading] false.  Otherwise the load fetches once.  When
    [cacheTimeout] is a whole number [ms] of milliseconds (300000 when it is
    not given), [now'] and [now' + ms] being safe integers, the sum is exact
    and the load is served from the cache exactly when [now2 < now' + ms]. *)
Theorem Provider_read_through config now now' now2 now2' p
    (fetched2 : Settled UserPermissions) providerCache st st2 :
  default true (enableCache config) = true ->
  let timeout := default (Number.ofZ (5 * 60 * 1000)) (cacheTimeout config) in
  let first := refreshPermissions config now now' (Fulfilled p) providerCache in
  let second := loadUserPermissions config now2 now2' fetched2 (snd first) in
  let fresh :=
    Number.ltb (Number.ofZ now2) (Number.add (Number.ofZ now') timeout) in
  occurrences isFetch (fst first) = 1%nat /\
  user (after st (fst first)) = Some (CachedPermissions p) /\
  occurrences isFetch (fst second) = (if fresh then 0 else 1)%nat /\
  (fresh = true ->
   user (after st2 (fst second)) = Some (CachedPermissions p) /\
   error (after st2 (fst second)) = None /\
   isLoading (after st2 (fst second)) = false) /\
  (forall ms : Z,
     timeout = Number.ofZ ms ->
     Number.isSafeInteger now' = true ->
     Number.isSafeInteger ms = true ->
     Number.isSafeInteger (now' + ms) = true ->
     fresh = (now2 <? now' + ms)%Z).
Proof.
  intros Hcache timeout first second fresh.
  assert (Hfirst : first =
    ([SetIsLoading true; SetError None; FetchUserPermissions;
      SetUser (CachedPermissions p); SetIsLoading false],
     MemoryCache.set now' (str "user-permissions") (CachedPermissions p)
       (Some timeout)
       (snd (MemoryCache.get now (str "user-permissions")
               (MemoryCache.delete (str "user-permissions") providerCache))))).
  { unfold first, refreshPermissions, refresh. rewrite Hcache.
    rewrite load_miss.
    - by rewrite Hcache.
    - right. unfold MemoryCache.delete, MemoryCache.get.
      by rewrite lookup_delete_eq. }
  assert (Hread : fst (MemoryCache.get now2 (str "user-permissions") (snd first))
                  = if fresh then Some (CachedPermissions p) else None).
  { rewrite Hfirst. cbn [snd]. apply get_set. }
  assert (Hsecond : fresh = true ->
            fst second = [SetIsLoading true; SetError None;
                          SetUser (CachedPermissions p); SetIsLoading false;
                          SetIsLoading false]).
  { intros Hfresh. unfold second, loadUserPermissions.
    rewrite (load_hit _ _ _ _ _ _ _ _ _ _ _ _ (CachedPermissions p)); [done.. |].
    by rewrite Hread, Hfresh. }
  split; [by rewrite Hfirst |]. split; [by rewrite Hfirst |]. split; [| split].
  - assert (Hcases : fresh = true \/ fresh = false) by (destruct fresh; auto).
    destruct Hcases as [Hfresh | Hfresh]; rewrite Hfresh; [by rewrite Hsecond |].
    unfold second, loadUserPermissions. rewrite load_miss.
    + destruct fetched2 as [q|reason]; [done |]. cbn zeta.
      by destruct (onError config).
    + right. by rewrite Hread, Hfresh.
  - intros Hfresh. by rewrite Hsecond.
  - intros ms Hms. unfold Number.isSafeInteger.
    intros Hnow%Z.ltb_lt Hsafe%Z.ltb_lt Hsum%Z.ltb_lt.
    unfold fresh. rewrite Hms, NumberFacts.add_ofZ by lia.
    apply NumberFacts.ltb_ofZ. lia.
Qed.

(** X25.  A failed refresh of the permissions: one fetch is made; the user
    stays what it was; [error] is the [Error] the fetch was rejected with,
    or one saying ['Failed to load user permissions'] when it was rejected
    with something else; [onError] is called once if it is given; [isLoading]
    ends false; nothing is stored, so that the next load fetches again. *)
Theorem Provider_failed_refresh config now now' now2 now2' reason
    (fetched2 : Settled UserPermissions) providerCache st :
  let failed := refreshPermissions config now now' (Rejected reason) providerCache in
  let st' := after st (fst failed) in
  occurrences isFetch (fst failed) = 1%nat /\
  user st' = user st /\
  error st' = Some (match reason with
                    | ReasonError e => e
                    | ReasonOther =>
                      {| message := str "Failed to load user permissions" |}
                    end) /\
  occurrences isOnError (fst failed) = (if onError config then 1 else 0)%nat /\
  isLoading st' = false /\
  featureFlags st' = featureFlags st /\
  occurrences isFetch
    (fst (loadUserPermissions config now2 now2' fetched2 (snd failed))) = 1%nat.
Proof.
  intros failed st'.
  assert (Hfailed : failed =
    ([SetIsLoading true; SetError None; FetchUserPermissions;
      SetError (Some (match reason with
                      | ReasonError e => e
                      | ReasonOther =>
                        {| message := str "Failed to load user permissions" |}
                      end))]
     ++ (if onError config
         then [OnError (match reason with
                        | ReasonError e => e
                        | ReasonOther =>
                          {| message := str "Failed to load user permissions" |}
                        end)]
         else [])
     ++ [SetIsLoading false],
     if default true (enableCache config)
     then MemoryCache.delete (str "user-permissions") providerCache
     else providerCache)).
  { unfold failed, refreshPermissions, refresh.
    destruct (default true (enableCache config)) eqn:Hcache.
    - rewrite load_miss.
      + rewrite Hcache. cbn zeta. f_equal.
        unfold MemoryCache.delete, MemoryCache.get.
        by rewrite lookup_delete_eq.
      + right. unfold MemoryCache.delete, MemoryCache.get.
        by rewrite lookup_delete_eq.
    - rewrite load_miss by by left. by rewrite Hcache. }
  unfold st'. rewrite Hfailed. cbn [fst snd].
  repeat split; try (by destruct (onError config)).
  unfold loadUserPermissions. rewrite load_miss.
  - destruct fetched2 as [q|reason2]; [done |]. cbn zeta.
    by destruct (onError config).
  - destruct (default true (enableCache config)); [right | by left].
    unfold MemoryCache.delete, MemoryCache.get. by rewrite lookup_delete_eq.
Qed.

(** X26.  The two loaders keep apart: loading the feature flags leaves the
    user, its loading flag and error, and the cache entry of the permissions
    as they were, and does nothing at all when no [fetchFeatureFlags] is
    given; loading the permissions leaves the flags, their loading flag and
    error, and the cache entry of the flags as they were. *)
Theorem Provider_loaders_apart config now now'
    (fetchedFlags : Settled (list FeatureFlag))
    (fetchedUser : Settled UserPermissions) providerCache st :
  let flags := loadFeatureFlags config now now' fetchedFlags providerCache in
  let perms := loadUserPermissions config now now' fetchedUser providerCache in
  (fetchFeatureFlags config = false -> flags = ([], providerCache)) /\
  user (after st (fst flags)) = user st /\
  isLoading (after st (fst flags)) = isLoading st /\
  error (after st (fst flags)) = error st /\
  snd flags !! str "user-permissions" = providerCache !! str "user-permissions" /\
  featureFlags (after st (fst perms)) = featureFlags st /\
  isFeatureFlagsLoading (after st (fst perms)) = isFeatureFlagsLoading st /\
  featureFlagsError (after st (fst perms)) = featureFlagsError st /\
  snd perms !! str "feature-flags" = providerCache !! str "feature-flags".
Proof.
  intros flags perms.
  assert (Hne : str "feature-flags" <> str "user-permissions") by discriminate.
  unfold flags, perms, loadFeatureFlags, loadUserPermissions, load.
  split; [by intros -> |].
  destruct (fetchFeatureFlags config); cbn [negb].
  2: { repeat split.
       all: destruct (default true (enableCache config)).
       all: try (pose proof (get_other now (str "user-permissions")
                               (str "feature-flags") providerCache
                               (not_eq_sym Hne)) as Hother).
       all: destruct (MemoryCache.get _ _ _) as [[data|] c];
         try destruct fetchedUser as [q|reason]; try done.
       all: try (by destruct (onError config)).
       all: cbn [snd] in *; unfold MemoryCache.set;
         by rewrite ?lookup_insert_ne by done. }
  repeat split.
  all: destruct (default true (enableCache config)).
  all: try (pose proof (get_other now (str "feature-flags")
                          (str "user-permissions") providerCache Hne) as Hflags).
  all: try (pose proof (get_other now (str "user-permissions")
                          (str "feature-flags") providerCache
                          (not_eq_sym Hne)) as Hperms).
  all: repeat match goal with
       | |- context [MemoryCache.get ?n ?k ?c] =>
         destruct (MemoryCache.get n k c) as [[?|] ?]
       end;
    try destruct fetchedFlags as [fl|reasonF];
    try destruct fetchedUser as [q|reason]; try done.
  all: try (by destruct (onError config)).
  all: cbn [snd] in *; unfold MemoryCache.set;
    by rewrite ?lookup_insert_ne by done.
Qed.

End ProviderLoaders.

(** A refresh at a clock of 2024 and a load ten seconds later, with the
    default options. *)
Lemma Provider_read_through_witness :
  Provider.occurrences Provider.isFetch
    (fst (Provider.loadUserPermissions providerDefaults 1730000010000 1730000010001
            (Provider.Rejected Provider.ReasonOther)
            (snd (Provider.refreshPermissions providerDefaults 1730000000000
                    1730000000001 (Provider.Fulfilled noUser) ∅))))
  = 0%nat.
Proof.
  exact (proj1 (proj2 (proj2 (Provider_read_through providerDefaults
           1730000000000 1730000000001 1730000010000 1730000010001 noUser
           (Provider.Rejected Provider.ReasonOther) ∅
           (providerInitial providerDefaults)
           (providerInitial providerDefaults) eq_refl)))).
Defined.

(** X27.  The hook [useAccessControl] keeps its user, flags and loading
    state in [useState] values whose setters it never calls.  So at every
    render, whatever the config, the options, the clock and the content of
    the global cache: it does not throw, it denies (all three access fields
    are [false]), it reports [isFeatureFlagsLoading: true] and no error,
    its debug lists are empty, and it neither reads nor writes the global
    cache; [useHasAccess] gives [false]. *)
Theorem useAccessControl_always_denies (config : ConfigObject)
    (options : UseAccessControl.Options) (now now' : Z)
    (globalCache : UseAccessControl.cache) :
  UseAccessControl.useAccessControl config options now now' globalCache
  = Ok ({| AccessControlResult.hasAccess := false;
           AccessControlResult.hasFeatureAccess := false;
           AccessControlResult.hasPermissionAccess := false;
           AccessControlResult.isFeatureFlagsLoading := true;
           AccessControlResult.featureFlagsError := None;
           AccessControlResult.debugInfo :=
             {| AccessControlResult.enabledFeatures := [];
                AccessControlResult.userPermissions := [];
                AccessControlResult.userRoles := [];
                AccessControlResult.hasFeatureCheck := false;
                AccessControlResult.hasPermissionCheck := false |} |},
        globalCache) /\
  UseAccessControl.useHasAccess config options now now' globalCache
  = Ok (false, globalCache).
Proof.
  unfold UseAccessControl.useHasAccess, UseAccessControl.useAccessControl,
    UseAccessControl.render.
  cbn [UseAccessControl.userPermissions UseAccessControl.initial].
  by destruct (default true (UseAccessControl.enableCache options)).
Qed.

(** X28.  What follows for the guards: whatever its access props and the
    content of the global cache, [AccessGuard] renders the [loading] node
    when that is truthy and nothing otherwise, never its children and never
    its fallback; [RouteGuard] renders the same and never calls
    [onAccessDenied]. *)
Theorem guards_render_loading (config : AccessControlConfig)
    (children fallback loading : JsValue) (debugMode : option bool)
    (onAccessDenied : bool) (now now' : Z) (globalCache : UseAccessControl.cache) :
  AccessGuard config children fallback loading debugMode now now' globalCache
  = Ok (if truthy loading then Fragment loading else RenderNull, globalCache) /\
  RouteGuard config children loading onAccessDenied debugMode now now' globalCache
  = Ok (if truthy loading then Fragment loading else RenderNull, false,
        globalCache).
Proof.
  unfold AccessGuard, RouteGuard, UseAccessControl.useAccessControl,
    UseAccessControl.render.
  cbn [UseAccessControl.userPermissions UseAccessControl.initial].
  by destruct (default true (UseAccessControl.enableCache (guardOptions debugMode))).
Qed.
